(** * encache: the cache backends and the key deriver of cacheimpl.go

    A shallow embedding of [cacheimpl.go] (package [encache]).  The Go
    standard packages the file imports ([time], [reflect],
    [encoding/json], [fmt]) and the store client are modelled first, each
    in a module named after the package; the repository's own functions
    follow, method by method, with the receiver's table or the store
    threaded through explicitly. *)

From Stdlib Require Import ZArith String Ascii List Bool Lia DecimalString.
From stdpp Require Import gmap strings.

Import ListNotations.
Set Warnings "-register-all".
Local Open Scope string_scope.
Local Open Scope Z_scope.

(** ** Go runtime: errors, panics, slices *)

(** The [error] values that occur in this file.  A nil [error] is [None]
    in [option error]. *)
Inductive error : Type :=
| redis_Nil                               (* redis.Nil: key not found *)
| StoreError (msg : string)               (* any other error of the store client *)
| SyntaxError                             (* a *json.SyntaxError *)
| UnmarshalTypeError                      (* a *json.UnmarshalTypeError *)
| LockError (msg : string).               (* an error of the lock primitive *)

(** A call either returns its results or panics. *)
Inductive outcome (A : Type) : Type :=
| Return (a : A)
| Panic.
Arguments Return {A} a.
Arguments Panic {A}.

(** A Go slice is nil or holds elements; [len] is 0 for both the nil and
    the empty slice. *)
Inductive slice (A : Type) : Type :=
| nil_slice
| mkslice (elems : list A).
Arguments nil_slice {A}.
Arguments mkslice {A} elems.

Definition elems_of {A} (s : slice A) : list A :=
  match s with nil_slice => [] | mkslice l => l end.

Definition len {A} (s : slice A) : nat := length (elems_of s).

(** ** Package time

    An instant is a reading of the process clock in nanoseconds and a
    duration is a signed count of nanoseconds (Go's int64).  [Add] is
    exact: Go's [Time.Add] only saturates outside the range of years a
    clock reading plus an int64 duration can reach. *)
Module time.
Definition Time : Type := Z.
Definition Duration : Type := Z.
Definition Second : Duration := 1000000000.
Definition Add (t : Time) (d : Duration) : Time := t + d.
(** [t.After(u)] reports whether [t] is strictly later than [u]. *)
Definition After (t u : Time) : bool := u <? t.
(** [t.Before(u)] reports whether [t] is strictly earlier than [u]. *)
Definition Before (t u : Time) : bool := t <? u.
End time.

(** ** JSON texts

    The grammar accepted by [encoding/json]'s scanner (RFC 8259, with the
    scanner's nesting limit), as a lexer followed by a stack parser, both
    structural on their input.  A number keeps its exact decimal value
    [(-1)^neg * m * 10^e]; a string keeps the characters between its
    quotes as written (escapes are checked, not expanded). *)
Module JSON.

Inductive value : Type :=
| JNull
| JBool (b : bool)
| JNumber (neg : bool) (m e : Z)
| JString (raw : string)
| JArray (xs : list value)
| JObject (ms : list (string * value)).

Inductive token : Type :=
| LBracket | RBracket | LBrace | RBrace | Comma | Colon
| Scalar (j : value).

Definition code (c : ascii) : Z := Z.of_N (N_of_ascii c).

Definition isSpace (c : ascii) : bool :=
  (code c =? 32) || (code c =? 9) || (code c =? 13) || (code c =? 10).

Definition digit_of (c : ascii) : option Z :=
  if (48 <=? code c) && (code c <=? 57) then Some (code c - 48) else None.

Definition isHex (c : ascii) : bool :=
  ((48 <=? code c) && (code c <=? 57))
  || ((97 <=? code c) && (code c <=? 102))
  || ((65 <=? code c) && (code c <=? 70)).

(** The characters that may follow a backslash, [u] apart. *)
Definition isEscape (c : ascii) : bool :=
  match c with
  | "b" | "f" | "n" | "r" | "t" | "\" | "/" => true
  | _ => (code c =? 34)%Z
  end%char.

Definition snoc (s : string) (c : ascii) : string := s ++ String c "".

(** States of the scanner inside a number. *)
Inductive numstate : Type :=
| NNeg | N0 | N1 | NDot | NDot0 | NE | NESign | NE0.

Record numacc : Type := mkNum {
  neg : bool;        (* a leading minus was read *)
  mant : Z;          (* the digits of the integer and fraction parts *)
  fracdigits : Z;    (* how many of them follow the point *)
  eneg : bool;       (* the exponent has a minus *)
  edigits : Z        (* the digits of the exponent *)
}.

Definition accepting (st : numstate) : bool :=
  match st with N0 | N1 | NDot0 | NE0 => true | _ => false end.

Definition number_of (a : numacc) : value :=
  JNumber (neg a) (mant a)
          ((if eneg a then - edigits a else edigits a) - fracdigits a).

Definition add_digit (a : numacc) (d : Z) (frac : bool) : numacc :=
  mkNum (neg a) (10 * mant a + d)
        (if frac then fracdigits a + 1 else fracdigits a) (eneg a) (edigits a).

Definition add_edigit (a : numacc) (d : Z) : numacc :=
  mkNum (neg a) (mant a) (fracdigits a) (eneg a) (10 * edigits a + d).

Definition isE (c : ascii) : bool := (code c =? 101) || (code c =? 69).

(** One character inside a number: [None] when [c] does not continue it. *)
Definition num_step (st : numstate) (a : numacc) (c : ascii)
  : option (numstate * numacc) :=
  match st, digit_of c with
  | NNeg, Some d => Some (if d =? 0 then N0 else N1, add_digit a d false)
  | N1, Some d => Some (N1, add_digit a d false)
  | (NDot | NDot0), Some d => Some (NDot0, add_digit a d true)
  | (NE | NESign | NE0), Some d => Some (NE0, add_edigit a d)
  | (N0 | N1), None =>
      if code c =? 46 then Some (NDot, a)
      else if isE c then Some (NE, a) else None
  | NDot0, None => if isE c then Some (NE, a) else None
  | NE, None =>
      if code c =? 43 then Some (NESign, a)
      else if code c =? 45
           then Some (NESign, mkNum (neg a) (mant a) (fracdigits a) true (edigits a))
           else None
  | _, _ => None
  end.

Inductive lexmode : Type :=
| LValue                               (* between tokens *)
| LString (raw : string)               (* inside a string *)
| LEsc (raw : string)                  (* after a backslash *)
| LHex (raw : string) (n : nat)        (* in \uXXXX, n + 1 digits to come *)
| LNum (st : numstate) (a : numacc)    (* inside a number *)
| LWord (rest : string) (j : value).   (* inside true, false or null *)

Definition num0 (sign : bool) : numacc := mkNum sign 0 0 false 0.

(** The first character of a token. *)
Definition begin (c : ascii) : option (list token * lexmode) :=
  if isSpace c then Some ([], LValue)
  else if code c =? 34 then Some ([], LString "")
  else match c with
       | "[" => Some ([LBracket], LValue)
       | "]" => Some ([RBracket], LValue)
       | "{" => Some ([LBrace], LValue)
       | "}" => Some ([RBrace], LValue)
       | "," => Some ([Comma], LValue)
       | ":" => Some ([Colon], LValue)
       | "-" => Some ([], LNum NNeg (num0 true))
       | "t" => Some ([], LWord "rue" (JBool true))
       | "f" => Some ([], LWord "alse" (JBool false))
       | "n" => Some ([], LWord "ull" JNull)
       | _ => match digit_of c with
              | Some d => Some ([], LNum (if (d =? 0)%Z then N0 else N1)
                                         (add_digit (num0 false) d false))
              | None => None
              end
       end%char.

Fixpoint lex (m : lexmode) (s : string) : option (list token) :=
  match s with
  | EmptyString =>
      match m with
      | LValue => Some []
      | LNum st a => if accepting st then Some [Scalar (number_of a)] else None
      | _ => None
      end
  | String c r =>
      match m with
      | LValue =>
          match begin c with
          | Some (ts, m') => option_map (app ts) (lex m' r)
          | None => None
          end
      | LString raw =>
          if code c =? 34 then option_map (cons (Scalar (JString raw))) (lex LValue r)
          else if code c =? 92 then lex (LEsc (snoc raw c)) r
          else if code c <? 32 then None
          else lex (LString (snoc raw c)) r
      | LEsc raw =>
          if isEscape c then lex (LString (snoc raw c)) r
          else if code c =? 117 then lex (LHex (snoc raw c) 3) r
          else None
      | LHex raw n =>
          if isHex c
          then match n with
               | O => lex (LString (snoc raw c)) r
               | S n' => lex (LHex (snoc raw c) n') r
               end
          else None
      | LNum st a =>
          match num_step st a c with
          | Some (st', a') => lex (LNum st' a') r
          | None =>
              if accepting st
              then match begin c with
                   | Some (ts, m') =>
                       option_map (fun l => Scalar (number_of a) :: ts ++ l) (lex m' r)
                   | None => None
                   end
              else None
          end
      | LWord rest j =>
          match rest with
          | String c' EmptyString =>
              if Ascii.eqb c c' then option_map (cons (Scalar j)) (lex LValue r) else None
          | String c' rest' =>
              if Ascii.eqb c c' then lex (LWord rest' j) r else None
          | EmptyString => None
          end
      end
  end.

(** The parser's stack: one frame per open array or object. *)
Inductive frame : Type :=
| FArr (acc : list value)
| FObj (acc : list (string * value)) (key : option string).

Inductive pmode : Type :=
| PValue | PValueOrEnd | PKeyOrEnd | PKey | PColon | PAfter
| PDone (j : value).

Definition maxNestingDepth : Z := 10000.

Definition complete (v : value) (stk : list frame) : option (pmode * list frame) :=
  match stk with
  | [] => Some (PDone v, [])
  | FArr acc :: stk' => Some (PAfter, FArr (acc ++ [v]) :: stk')
  | FObj acc (Some k) :: stk' => Some (PAfter, FObj (acc ++ [(k, v)]) None :: stk')
  | FObj _ None :: _ => None
  end.

Definition push (f : frame) (stk : list frame) : option (list frame) :=
  if maxNestingDepth <? Z.of_nat (length stk) + 1 then None else Some (f :: stk).

Definition pstep (m : pmode) (stk : list frame) (t : token)
  : option (pmode * list frame) :=
  match m, t with
  | (PValue | PValueOrEnd), Scalar j => complete j stk
  | (PValue | PValueOrEnd), LBracket =>
      option_map (pair PValueOrEnd) (push (FArr []) stk)
  | (PValue | PValueOrEnd), LBrace =>
      option_map (pair PKeyOrEnd) (push (FObj [] None) stk)
  | (PValueOrEnd | PAfter), RBracket =>
      match stk with
      | FArr acc :: stk' => complete (JArray acc) stk'
      | _ => None
      end
  | (PKeyOrEnd | PKey), Scalar (JString k) =>
      match stk with
      | FObj acc None :: stk' => Some (PColon, FObj acc (Some k) :: stk')
      | _ => None
      end
  | (PKeyOrEnd | PAfter), RBrace =>
      match stk with
      | FObj acc None :: stk' => complete (JObject acc) stk'
      | _ => None
      end
  | PColon, Colon => Some (PValue, stk)
  | PAfter, Comma =>
      match stk with
      | FArr _ :: _ => Some (PValue, stk)
      | FObj _ None :: _ => Some (PKey, stk)
      | _ => None
      end
  | _, _ => None
  end.

Fixpoint run (m : pmode) (stk : list frame) (ts : list token) : option value :=
  match ts with
  | [] => match m with PDone j => Some j | _ => None end
  | t :: ts' =>
      match pstep m stk t with
      | Some (m', stk') => run m' stk' ts'
      | None => None
      end
  end.

(** The value a text denotes, [None] when the text is not valid JSON. *)
Definition parse (data : string) : option value :=
  match lex LValue data with
  | Some ts => run PValue [] ts
  | None => None
  end.

(** [strconv.ParseFloat] reports a range error when the decimal value is
    at least half an ulp above the largest float64, that is when
    [m * 10^e >= 2^1024 - 2^970]. *)
Definition overflows (m e : Z) : bool :=
  if m =? 0 then false
  else if 0 <=? e then 2 ^ 1024 - 2 ^ 970 <=? m * 10 ^ e
       else (2 ^ 1024 - 2 ^ 970) * 10 ^ (- e) <=? m.

Fixpoint in_range (j : value) : bool :=
  match j with
  | JNumber _ m e => negb (overflows m e)
  | JArray xs => forallb in_range xs
  | JObject ms => forallb (fun kv => match kv with (_, v) => in_range v end) ms
  | _ => true
  end.

End JSON.

(** ** Go types and values

    The fragment of Go's types and values that the cache handles here:
    the predeclared scalar types, the empty interface, slices, maps,
    function signatures and defined (named) types without methods. *)
Inductive GoType : Type :=
| TBool | TInt | TFloat64 | TString
| TInterface                                   (* interface{} *)
| TSlice (elem : GoType)
| TMap (key elem : GoType)
| TFunc (ins outs : list GoType)
| TDefined (name : string) (under : GoType).   (* type name under *)

(** The content of a value.  [VJSON j] is the value the JSON decoder
    builds for [j] in an [interface{}]: a float64 for a number, a string,
    a []interface{} or a map[string]interface{}; its content is kept as
    the JSON value it was decoded from. *)
Inductive GoVal : Type :=
| VNil
| VBool (b : bool)
| VInt (n : Z)
| VString (s : string)
| VJSON (j : JSON.value).

(** An interface value ([any]): nil, or a content with its dynamic type. *)
Inductive any : Type :=
| nil_any
| Any (dyn : GoType) (x : GoVal).

(** ** Package reflect *)
Module reflect.

Inductive Kind : Type :=
| KBool | KInt | KFloat64 | KString | KInterface | KSlice | KMap | KFunc.

Fixpoint underlying (t : GoType) : GoType :=
  match t with TDefined _ u => underlying u | _ => t end.

Definition kind (t : GoType) : Kind :=
  match underlying t with
  | TBool => KBool | TInt => KInt | TFloat64 => KFloat64 | TString => KString
  | TInterface => KInterface | TSlice _ => KSlice | TMap _ _ => KMap
  | TFunc _ _ => KFunc
  | TDefined _ _ => KInterface
  end.

Definition Kind_eqb (a b : Kind) : bool :=
  match a, b with
  | KBool, KBool | KInt, KInt | KFloat64, KFloat64 | KString, KString
  | KInterface, KInterface | KSlice, KSlice | KMap, KMap | KFunc, KFunc => true
  | _, _ => false
  end.

(** Type identity. *)
Fixpoint Type_eqb (a b : GoType) : bool :=
  match a, b with
  | TBool, TBool | TInt, TInt | TFloat64, TFloat64 | TString, TString
  | TInterface, TInterface => true
  | TSlice x, TSlice y => Type_eqb x y
  | TMap k1 e1, TMap k2 e2 => Type_eqb k1 k2 && Type_eqb e1 e2
  | TFunc i1 o1, TFunc i2 o2 =>
      let fix all2 (xs ys : list GoType) : bool :=
        match xs, ys with
        | [], [] => true
        | x :: xs', y :: ys' => Type_eqb x y && all2 xs' ys'
        | _, _ => false
        end in
      all2 i1 i2 && all2 o1 o2
  | TDefined n1 u1, TDefined n2 u2 => String.eqb n1 n2 && Type_eqb u1 u2
  | _, _ => false
  end.

Definition hasName (t : GoType) : bool :=
  match t with
  | TBool | TInt | TFloat64 | TString | TDefined _ _ => true
  | _ => false
  end.

(** [directlyAssignable(T, V)]: identical types, or identical underlying
    types when at most one of the two is named. *)
Definition directlyAssignable (T V : GoType) : bool :=
  if Type_eqb T V then true
  else if (hasName T && hasName V) || negb (Kind_eqb (kind T) (kind V)) then false
       else Type_eqb (underlying T) (underlying V).

(** [implements(T, V)]: every interface type of the fragment has an
    empty method set, which any type implements. *)
Definition implements (T V : GoType) : bool := Kind_eqb (kind T) KInterface.

(** A [reflect.Value]: the zero Value, a value of type [typ], or a value
    of type [typ] that was obtained from an unexported struct field or
    method (its read-only flag is set). *)
Inductive Value : Type :=
| Zero
| Val (typ : GoType) (v : GoVal)
| ValRO (typ : GoType) (v : GoVal).

(** The dynamic type of the content of an interface. *)
Definition dynType (x : GoVal) : option GoType :=
  match x with
  | VNil => None
  | VBool _ => Some TBool
  | VInt _ => Some TInt
  | VString _ => Some TString
  | VJSON j =>
      match j with
      | JSON.JNull => None
      | JSON.JBool _ => Some TBool
      | JSON.JNumber _ _ _ => Some TFloat64
      | JSON.JString _ => Some TString
      | JSON.JArray _ => Some (TSlice TInterface)
      | JSON.JObject _ => Some (TMap TString TInterface)
      end
  end.

(** [reflect.ValueOf(i)]: the zero Value for a nil interface. *)
Definition ValueOf (i : GoVal) : Value :=
  match dynType i with
  | Some t => Val t i
  | None => Zero
  end.

(** [t.Out(i)] panics when [t] is not a function type or [i] is not the
    index of one of its results. *)
Definition Out (t : GoType) (i : nat) : outcome GoType :=
  match underlying t with
  | TFunc _ outs =>
      match outs !! i with
      | Some o => Return o
      | None => Panic
      end
  | _ => Panic
  end.

Definition NumOut (t : GoType) : nat :=
  match underlying t with
  | TFunc _ outs => length outs
  | _ => O
  end.

Fixpoint zeroVal (t : GoType) : GoVal :=
  match t with
  | TBool => VBool false
  | TInt => VInt 0
  | TFloat64 => VJSON (JSON.JNumber false 0 0)
  | TString => VString ""
  | TDefined _ u => zeroVal u
  | _ => VNil
  end.

(** [reflect.New(t).Elem()]: a settable Value of type [t] holding zero. *)
Definition New_Elem (t : GoType) : Value := Val t (zeroVal t).

(** [v.Set(x)] for a settable [v]: the new [v], or a panic when [x] is
    the zero Value or its type is not assignable to the type of [v]. *)
Definition Set_ (v x : Value) : outcome Value :=
  match v, x with
  | Val dst _, Val xt xc =>
      if directlyAssignable dst xt then Return (Val dst xc)
      else if implements dst xt then Return (Val dst xc)
           else Panic
  | _, _ => Panic
  end.

(** [v.Interface()] panics on the zero Value and on a read-only Value.
    A Value of an interface type gives the interface it holds, any other
    Value its content under its own type. *)
Definition Interface (v : Value) : outcome any :=
  match v with
  | Val t c =>
      if Kind_eqb (kind t) KInterface
      then match dynType c with
           | Some d => Return (Any d c)
           | None => Return nil_any
           end
      else Return (Any t c)
  | Zero | ValRO _ _ => Panic
  end.

End reflect.

(** ** Package encoding/json, as this file uses it *)
Module json.

Definition decoded (j : JSON.value) : GoVal :=
  match j with
  | JSON.JNull => VNil
  | JSON.JBool b => VBool b
  | _ => VJSON j
  end.

(** [json.Unmarshal(data, &results)] for [results] of type
    []interface{}: the error, or the elements [results] holds
    afterwards ([null] leaves it nil). *)
Definition Unmarshal (data : string) : error + list GoVal :=
  match JSON.parse data with
  | None => inl SyntaxError
  | Some JSON.JNull => inr []
  | Some (JSON.JArray xs) =>
      if forallb JSON.in_range xs then inr (map decoded xs)
      else inl UnmarshalTypeError
  | Some _ => inl UnmarshalTypeError
  end.

(** [json.Marshal(res)] for [res] of type []reflect.Value.
    [reflect.Value] is a struct without exported fields and without a
    marshalling method, so every element is encoded as the empty
    object, whatever it holds; a nil slice is encoded as [null]. *)
Definition Marshal (res : slice reflect.Value) : string * option error :=
  match res with
  | nil_slice => ("null", None)
  | mkslice vs =>
      ("[" ++ String.concat "," (map (fun _ : reflect.Value => "{}") vs) ++ "]", None)
  end.

End json.

(** ** Package fmt: the verb %v *)
Module fmt.
Section Sprint.
(** The text of a decoded JSON value (float formatting and string
    unquoting are not modelled). *)
Variable decodedText : JSON.value -> string.

(** A nil interface and a nil func print as [<nil>], a nil slice as
    [[]] and a nil map as [map[]]. *)
Definition Sprint_v (a : any) : string :=
  match a with
  | nil_any => "<nil>"
  | Any t x =>
      match x with
      | VNil =>
          match reflect.kind t with
          | reflect.KSlice => "[]"
          | reflect.KMap => "map[]"
          | _ => "<nil>"
          end
      | VBool b => if b then "true" else "false"
      | VInt n => NilZero.string_of_int (Z.to_int n)
      | VString s => s
      | VJSON j => decodedText j
      end
  end.
End Sprint.
End fmt.

(** ** cacheimpl.go: the local map backend *)

Record cacheEntry : Type := mkEntry {
  value : slice reflect.Value;
  expiryTime : time.Time
}.

Record MapCacheImpl : Type := mkMapCache {
  cache : gmap string cacheEntry
}.

(** The lock type is declared in another file of the package.  A lock is
    taken here as what its two methods return. *)
Record MuLockImpl : Type := mkLock {
  lock : option error;
  unlock : option error
}.

(** [size] is the variadic argument; its element is a capacity hint and
    leaves the new table empty. *)
Definition NewMapCacheImpl (size : list Z) : outcome MapCacheImpl :=
  if (1 <? length size)%nat then Panic
  else Return (mkMapCache ∅).

(** Each method takes the reading [now] of the clock for its call to
    [time.Now()] and returns its results with the receiver afterwards. *)
Definition MapCacheImpl_Get (key : string) (fType : GoType) (now : time.Time)
    (cacheImpl : MapCacheImpl)
  : (slice reflect.Value * bool * option error) * MapCacheImpl :=
  match cache cacheImpl !! key with
  | Some res =>
      if time.After (expiryTime res) now
      then ((value res, true, None), cacheImpl)
      else ((nil_slice, false, None), cacheImpl)
  | None => ((nil_slice, false, None), cacheImpl)
  end.

Definition MapCacheImpl_Set (key : string) (val : slice reflect.Value)
    (expiry : time.Duration) (now : time.Time) (cacheImpl : MapCacheImpl)
  : option error * MapCacheImpl :=
  (None,
   mkMapCache (<[key := mkEntry val (time.Add now expiry)]> (cache cacheImpl))).

Definition MapCacheImpl_Serialize (res : slice reflect.Value) : string * option error :=
  ("", None).

Definition MapCacheImpl_Deserialize (serializedResult : string) (fType : GoType)
  : slice reflect.Value * option error :=
  (nil_slice, None).

Section MapExpire.
(** What [NewMuLockImpl()] returns. *)
Variable NewMuLockImpl : MuLockImpl.

(** The deferred unlock runs on both returns of the body; a failed lock
    panics before it is registered. *)
Definition MapCacheImpl_Expire (key : string) (expiry : time.Duration)
    (now : time.Time) (cacheImpl : MapCacheImpl)
  : outcome (option error) * MapCacheImpl :=
  let muLockImpl := NewMuLockImpl in
  match lock muLockImpl with
  | Some lockerr => (Panic, cacheImpl)
  | None =>
      let '(ret, after) :=
        match cache cacheImpl !! key with
        | Some entry =>
            if expiry <=? 0
            then (None, mkMapCache (delete key (cache cacheImpl)))
            else MapCacheImpl_Set key (value entry) expiry now cacheImpl
        | None => (None, cacheImpl)
        end in
      match unlock muLockImpl with
      | Some unlockerr => (Panic, after)
      | None => (Return ret, after)
      end
  end.
End MapExpire.

(** One pass of the loop that [PeriodicExpire] starts, after its sleep,
    run with no other call on the table in between.  [order] lists the
    keys in the order the [range] reaches them, each with the reading of
    [time.Now()] in its iteration; a key that is no longer in the table
    when it is reached is not produced.  The result holds the errors the
    pass has logged. *)
Section MapPeriodicExpire.
Variable NewMuLockImpl : MuLockImpl.

Fixpoint PeriodicExpire_range (order : list (string * time.Time))
    (logged : list error) (cacheImpl : MapCacheImpl)
  : outcome (list error) * MapCacheImpl :=
  match order with
  | [] => (Return logged, cacheImpl)
  | (key, now) :: rest =>
      match cache cacheImpl !! key with
      | Some entry =>
          if time.Before (expiryTime entry) now
          then match MapCacheImpl_Expire NewMuLockImpl key 0 now cacheImpl with
               | (Panic, cacheImpl') => (Panic, cacheImpl')
               | (Return (Some err), cacheImpl') =>
                   PeriodicExpire_range rest (logged ++ [err]) cacheImpl'
               | (Return None, cacheImpl') =>
                   PeriodicExpire_range rest logged cacheImpl'
               end
          else PeriodicExpire_range rest logged cacheImpl
      | None => PeriodicExpire_range rest logged cacheImpl
      end
  end.

Definition PeriodicExpire_pass (order : list (string * time.Time))
    (cacheImpl : MapCacheImpl) : outcome (list error) * MapCacheImpl :=
  PeriodicExpire_range order [] cacheImpl.
End MapPeriodicExpire.

(** ** cacheimpl.go: the remote store backend *)

(** The methods of [redis.UniversalClient] that the backend calls, over a
    state [S] of the connection and the store.  [client_Get] is
    [Get(ctx, key).Result()]; the two others are followed by [.Err()]. *)
Class UniversalClient (S : Type) : Type := {
  client_Get : string -> time.Time -> S -> (string * option error) * S;
  client_Set : string -> string -> time.Duration -> time.Time -> S -> option error * S;
  client_Expire : string -> time.Duration -> time.Time -> S -> option error * S
}.

Definition RedisCacheImpl_Serialize (res : slice reflect.Value) : string * option error :=
  match json.Marshal res with
  | (_, Some err) => ("", Some err)
  | (serializedRes, None) => (serializedRes, None)
  end.

(** The loop of [Deserialize]: [i] is the index of the head of [todo] in
    [results], [res] the slice made for the answer. *)
Fixpoint Deserialize_loop (fType : GoType) (i : nat) (todo : list GoVal)
    (res : list reflect.Value) : outcome (list reflect.Value) :=
  match todo with
  | [] => Return res
  | r :: todo' =>
      match reflect.Out fType i with
      | Panic => Panic
      | Return t =>
          match reflect.Set_ (reflect.New_Elem t) (reflect.ValueOf r) with
          | Panic => Panic
          | Return v => Deserialize_loop fType (S i) todo' (<[i := v]> res)
          end
      end
  end.

Definition RedisCacheImpl_Deserialize (serializedResult : string) (fType : GoType)
  : outcome (slice reflect.Value * option error) :=
  match json.Unmarshal serializedResult with
  | inl err => Return (nil_slice, Some err)
  | inr results =>
      let res := repeat reflect.Zero (length results) in
      match Deserialize_loop fType 0 results res with
      | Panic => Panic
      | Return res' => Return (mkslice res', None)
      end
  end.

(** [err != nil] and [err == redis.Nil]. *)
Definition not_nil (err : option error) : bool :=
  match err with Some _ => true | None => false end.

Definition is_redis_Nil (err : option error) : bool :=
  match err with Some redis_Nil => true | _ => false end.

Section RemoteStore.
Context {S : Type} `{UniversalClient S}.

Definition RedisCacheImpl_Get (key : string) (fType : GoType) (now : time.Time)
    (store : S)
  : outcome (slice reflect.Value * bool * option error) * S :=
  let '((cachedResult, err), store') := client_Get key now store in
  if not_nil err && negb (is_redis_Nil err)
  then (Return (nil_slice, false, err), store')
  else if is_redis_Nil err
  then (Return (nil_slice, false, None), store')
  else
    match RedisCacheImpl_Deserialize cachedResult fType with
    | Panic => (Panic, store')
    | Return (_, Some err') => (Return (nil_slice, false, Some err'), store')
    | Return (returnValue, None) => (Return (returnValue, true, None), store')
    end.

Definition RedisCacheImpl_Set (key : string) (val : slice reflect.Value)
    (expiry : time.Duration) (now : time.Time) (store : S)
  : option error * S :=
  match RedisCacheImpl_Serialize val with
  | (_, Some err) => (Some err, store)
  | (serializedResult, None) =>
      match client_Set key serializedResult expiry now store with
      | (Some err, store') => (Some err, store')
      | (None, store') => (None, store')
      end
  end.

Definition RedisCacheImpl_Expire (key : string) (expiry : time.Duration)
    (now : time.Time) (store : S) : option error * S :=
  client_Expire key expiry now store.
End RemoteStore.

(** ** cacheimpl.go: the key deriver *)
Section CacheKey.
Variable decodedText : JSON.value -> string.

Fixpoint Key_loop (key : string) (args : list reflect.Value) : outcome string :=
  match args with
  | [] => Return key
  | arg :: rest =>
      match reflect.Interface arg with
      | Return i => Key_loop (key ++ fmt.Sprint_v decodedText i) rest
      | Panic => Panic
      end
  end.

Definition CacheKeyImpl_Key (fName : string) (args : slice reflect.Value)
  : outcome string :=
  Key_loop fName (elems_of args).
End CacheKey.

(** ** A store to run the remote backend against

    An in-memory store that answers as a reachable server does: [Get]
    finds a key that was set and has not expired and reports [redis.Nil]
    otherwise; [Set] with a positive expiration keeps the text until
    [now + expiration]; as the client documents, a zero expiration means
    the key has no expiration time and [KeepTTL] (-1) keeps the one it
    has; [Expire] with a TTL that is not positive removes the key. *)
Record storeEntry : Type := mkStoreEntry {
  text : string;
  deadline : option time.Time
}.

Definition live (now : time.Time) (e : storeEntry) : bool :=
  match deadline e with
  | Some d => now <? d
  | None => true
  end.

Definition KeepTTL : time.Duration := -1.

Definition mem_Get (key : string) (now : time.Time) (st : gmap string storeEntry)
  : (string * option error) * gmap string storeEntry :=
  match st !! key with
  | Some e => if live now e then ((text e, None), st) else (("", Some redis_Nil), st)
  | None => (("", Some redis_Nil), st)
  end.

Definition mem_Set (key txt : string) (expiration : time.Duration)
    (now : time.Time) (st : gmap string storeEntry)
  : option error * gmap string storeEntry :=
  let d :=
    if 0 <? expiration then Some (time.Add now expiration)
    else if expiration =? KeepTTL
         then match st !! key with
              | Some e => if live now e then deadline e else None
              | None => None
              end
         else None in
  (None, <[key := mkStoreEntry txt d]> st).

Definition mem_Expire (key : string) (expiration : time.Duration)
    (now : time.Time) (st : gmap string storeEntry)
  : option error * gmap string storeEntry :=
  match st !! key with
  | Some e =>
      if live now e
      then if expiration <=? 0 then (None, delete key st)
           else (None, <[key := mkStoreEntry (text e) (Some (time.Add now expiration))]> st)
      else (None, st)
  | None => (None, st)
  end.

#[export] Instance MemoryStore : UniversalClient (gmap string storeEntry) := {
  client_Get := mem_Get;
  client_Set := mem_Set;
  client_Expire := mem_Expire
}.

(** A lock whose two methods succeed. *)
Definition heldLock : MuLockImpl := mkLock None None.

(** ** Histories of calls on the local map backend *)

Inductive mapCall : Type :=
| callGet (key : string) (fType : GoType) (now : time.Time)
| callSet (key : string) (val : slice reflect.Value) (ttl : time.Duration)
          (now : time.Time)
| callExpire (mu : MuLockImpl) (key : string) (ttl : time.Duration)
             (now : time.Time).

Definition after_call (cacheImpl : MapCacheImpl) (call : mapCall) : MapCacheImpl :=
  match call with
  | callGet key fType now => snd (MapCacheImpl_Get key fType now cacheImpl)
  | callSet key val ttl now => snd (MapCacheImpl_Set key val ttl now cacheImpl)
  | callExpire mu key ttl now => snd (MapCacheImpl_Expire mu key ttl now cacheImpl)
  end.

Definition after_calls (calls : list mapCall) (cacheImpl : MapCacheImpl) : MapCacheImpl :=
  fold_left after_call calls cacheImpl.

(** [Set] is the only call that writes a key. *)
Definition writes (key : string) (call : mapCall) : bool :=
  match call with
  | callSet key' _ _ _ => String.eqb key' key
  | _ => false
  end.

(** The text a valid argument contributes to a key. *)
Definition argText (decodedText : JSON.value -> string) (arg : reflect.Value) : string :=
  match reflect.Interface arg with
  | Return a => fmt.Sprint_v decodedText a
  | Panic => ""
  end.

(** The arguments [Interface] gives a value for: neither the zero Value
    nor read-only. *)
Definition valid (arg : reflect.Value) : Prop := reflect.Interface arg <> Panic.

(** Whether [Set] on a settable Value of type [t] takes the decoded
    value [r]: [r] is not nil and its type is assignable to [t]. *)
Definition accepts (t : GoType) (r : GoVal) : bool :=
  match reflect.dynType r with
  | Some xt => reflect.directlyAssignable t xt || reflect.implements t xt
  | None => false
  end.

(** The value the decoder builds for the empty JSON object: an empty
    map[string]interface{}. *)
Definition emptyMap : GoVal := VJSON (JSON.JObject []).

(** * Properties of the local map backend *)

Section MapBackend.
Implicit Types (c : MapCacheImpl) (key : string) (e : cacheEntry).
Implicit Types (now : time.Time) (ttl : time.Duration) (fType : GoType).

Lemma After_lt (t u : time.Time) : time.After t u = true <-> u < t.
Proof. unfold time.After. apply Z.ltb_lt. Qed.

Lemma After_ge (t u : time.Time) : time.After t u = false <-> t <= u.
Proof. unfold time.After. apply Z.ltb_ge. Qed.

Lemma Get_fresh key fType now c e :
  cache c !! key = Some e -> now < expiryTime e ->
  fst (MapCacheImpl_Get key fType now c) = (value e, true, None).
Proof.
  intros Hk Hlt. unfold MapCacheImpl_Get. rewrite Hk.
  apply After_lt in Hlt. now rewrite Hlt.
Qed.

Lemma Get_stale key fType now c e :
  cache c !! key = Some e -> expiryTime e <= now ->
  fst (MapCacheImpl_Get key fType now c) = (nil_slice, false, None).
Proof.
  intros Hk Hle. unfold MapCacheImpl_Get. rewrite Hk.
  apply After_ge in Hle. now rewrite Hle.
Qed.

Lemma Get_absent key fType now c :
  cache c !! key = None ->
  fst (MapCacheImpl_Get key fType now c) = (nil_slice, false, None).
Proof. intros Hk. unfold MapCacheImpl_Get. now rewrite Hk. Qed.

Lemma Set_lookup key val ttl now c :
  cache (snd (MapCacheImpl_Set key val ttl now c)) !! key
  = Some (mkEntry val (time.Add now ttl)).
Proof. simpl. apply lookup_insert_eq. Qed.

Lemma Set_lookup_other key key' val ttl now c :
  key <> key' ->
  cache (snd (MapCacheImpl_Set key val ttl now c)) !! key' = cache c !! key'.
Proof. intros Hne. simpl. now apply lookup_insert_ne. Qed.

(** Written on the local map backend, a value is found again as long as
    the clock has not passed its expiry: in particular at once, for any
    positive TTL. *)
Lemma MapCacheImpl_Set_then_Get key val ttl fType now now' c :
  0 < ttl -> now <= now' < now + ttl ->
  MapCacheImpl_Set key val ttl now c = (None, snd (MapCacheImpl_Set key val ttl now c))
  /\ fst (MapCacheImpl_Get key fType now' (snd (MapCacheImpl_Set key val ttl now c)))
     = (val, true, None).
Proof.
  intros Hpos Hnow. split; [reflexivity|].
  apply (Get_fresh _ _ _ _ (mkEntry val (time.Add now ttl))).
  - apply Set_lookup.
  - simpl. unfold time.Add. lia.
Qed.

(** C2. [Get] on the local map backend never returns an error; it
    reports found exactly when the key is in the table with an expiry
    strictly after the current time, and then returns the stored value;
    otherwise it returns the nil value list, as it does for a key that
    is not in the table. *)
Theorem MapCacheImpl_Get_spec key fType now c :
  let '(v, found, err) := fst (MapCacheImpl_Get key fType now c) in
  err = None
  /\ (found = true <-> exists e, cache c !! key = Some e /\ now < expiryTime e)
  /\ (forall e, cache c !! key = Some e -> now < expiryTime e -> v = value e)
  /\ (found = false -> v = nil_slice)
  /\ (cache c !! key = None -> found = false).
Proof.
  unfold MapCacheImpl_Get.
  destruct (cache c !! key) as [e|] eqn:Hk; simpl.
  - destruct (time.After (expiryTime e) now) eqn:Ha; simpl.
    + apply After_lt in Ha.
      repeat split; try congruence; eauto.
    + apply After_ge in Ha.
      repeat split; try congruence.
      * intros [e' [He' Hlt]]. assert (e' = e) by congruence. subst. lia.
      * intros e' He' Hlt. assert (e' = e) by congruence. subst. lia.
  - repeat split; try congruence.
    intros [e' [He' _]]. discriminate.
Qed.

(** C9. [Get] on the local map backend returns the table as it found
    it: no entry is inserted, updated or deleted, a stale one included. *)
Theorem MapCacheImpl_Get_frame key fType now c :
  snd (MapCacheImpl_Get key fType now c) = c
  /\ cache (snd (MapCacheImpl_Get key fType now c)) !! key = cache c !! key.
Proof.
  assert (Hsame : snd (MapCacheImpl_Get key fType now c) = c).
  { unfold MapCacheImpl_Get.
    destruct (cache c !! key) as [e|]; [|reflexivity].
    destruct (time.After (expiryTime e) now); reflexivity. }
  split; [exact Hsame|]. now rewrite Hsame.
Qed.

(** C10. The codec of the local map backend is a pair of constants:
    [Serialize] returns the empty text and no error for every value
    list, [Deserialize] the nil value list and no error for every text
    and signature. *)
Theorem MapCacheImpl_codec_constant (res res' : slice reflect.Value)
    (serializedResult : string) fType :
  MapCacheImpl_Serialize res = ("", None)
  /\ MapCacheImpl_Deserialize serializedResult fType = (nil_slice, None)
  /\ MapCacheImpl_Serialize res = MapCacheImpl_Serialize res'
  /\ MapCacheImpl_Deserialize (fst (MapCacheImpl_Serialize res)) fType
     = (nil_slice, None).
Proof. repeat split. Qed.

Section Expire.
Variable mu : MuLockImpl.
Hypothesis lock_ok : lock mu = None.
Hypothesis unlock_ok : unlock mu = None.

Lemma Expire_absent key ttl now c :
  cache c !! key = None ->
  MapCacheImpl_Expire mu key ttl now c = (Return None, c).
Proof.
  intros Hk. unfold MapCacheImpl_Expire.
  now rewrite lock_ok, Hk, unlock_ok.
Qed.

Lemma Expire_delete key ttl now c e :
  cache c !! key = Some e -> ttl <= 0 ->
  MapCacheImpl_Expire mu key ttl now c
  = (Return None, mkMapCache (delete key (cache c))).
Proof.
  intros Hk Httl. unfold MapCacheImpl_Expire.
  rewrite lock_ok, Hk.
  apply Z.leb_le in Httl. rewrite Httl. now rewrite unlock_ok.
Qed.

Lemma Expire_refresh key ttl now c e :
  cache c !! key = Some e -> 0 < ttl ->
  MapCacheImpl_Expire mu key ttl now c
  = (Return None,
     mkMapCache (<[key := mkEntry (value e) (time.Add now ttl)]> (cache c))).
Proof.
  intros Hk Httl. unfold MapCacheImpl_Expire.
  rewrite lock_ok, Hk.
  assert (Hf : (ttl <=? 0) = false) by (apply Z.leb_gt; lia).
  rewrite Hf. simpl. now rewrite unlock_ok.
Qed.
End Expire.

(** A lock that fails makes [Expire] panic with the table untouched. *)
Lemma Expire_lock_failure (mu : MuLockImpl) key ttl now c lockerr :
  lock mu = Some lockerr ->
  MapCacheImpl_Expire mu key ttl now c = (Panic, c).
Proof. intros Hl. unfold MapCacheImpl_Expire. now rewrite Hl. Qed.

(** C5. With the lock taken and released without error, [Expire] on
    the local map backend returns success in every case; it leaves the
    table as it is when the key is absent, deletes the key when it is
    present and the TTL is at most 0, and otherwise stores the same
    value again under the key with the expiry [now + ttl]. *)
Theorem MapCacheImpl_Expire_spec (mu : MuLockImpl) key ttl now c :
  lock mu = None -> unlock mu = None ->
  exists c',
    MapCacheImpl_Expire mu key ttl now c = (Return None, c')
    /\ (cache c !! key = None -> c' = c)
    /\ (forall e, cache c !! key = Some e -> ttl <= 0 ->
        cache c' = delete key (cache c))
    /\ (forall e, cache c !! key = Some e -> 0 < ttl ->
        cache c' = <[key := mkEntry (value e) (now + ttl)]> (cache c)).
Proof.
  intros Hl Hu.
  destruct (cache c !! key) as [e|] eqn:Hk.
  - destruct (Z_le_gt_dec ttl 0) as [Hle|Hgt].
    + eexists. split; [apply (Expire_delete mu Hl Hu _ _ _ _ e Hk Hle)|].
      repeat split; try congruence; intros; simpl; try reflexivity; lia.
    + eexists. split; [apply (Expire_refresh mu Hl Hu _ _ _ _ e Hk); lia|].
      repeat split; try congruence; intros e' He' Hlt; simpl; try lia.
      assert (e' = e) by congruence. now subst.
  - exists c. split; [now apply Expire_absent|].
    repeat split; congruence.
Qed.

End MapBackend.

Section MapHistories.
Implicit Types (c : MapCacheImpl) (key : string).

Lemma Expire_keeps_absent (mu : MuLockImpl) key key' ttl now c :
  cache c !! key = None ->
  cache (snd (MapCacheImpl_Expire mu key' ttl now c)) !! key = None.
Proof.
  intros Hk. unfold MapCacheImpl_Expire.
  destruct (lock mu); [exact Hk|].
  destruct (cache c !! key') as [e|] eqn:Hk'.
  - destruct (ttl <=? 0); simpl.
    + destruct (unlock mu); simpl;
        (destruct (decide (key' = key)) as [->|Hne];
         [apply lookup_delete_eq | now rewrite lookup_delete_ne]).
    + assert (key' <> key) by congruence.
      destruct (unlock mu); simpl; now rewrite lookup_insert_ne.
  - destruct (unlock mu); exact Hk.
Qed.

Lemma after_call_keeps_absent key call c :
  writes key call = false -> cache c !! key = None ->
  cache (after_call c call) !! key = None.
Proof.
  intros Hw Hk. destruct call as [k t n|k v d n|mu k d n]; simpl in *.
  - unfold MapCacheImpl_Get.
    destruct (cache c !! k) as [e|]; [|exact Hk].
    destruct (time.After (expiryTime e) n); exact Hk.
  - apply String.eqb_neq in Hw. now rewrite lookup_insert_ne.
  - now apply Expire_keeps_absent.
Qed.

(** A key that no [Set] has written is found by no [Get], whatever was
    called on the other keys since the backend was made. *)
Lemma never_written_not_found key fType now calls c0 :
  NewMapCacheImpl [] = Return c0 ->
  Forall (fun call => writes key call = false) calls ->
  fst (MapCacheImpl_Get key fType now (after_calls calls c0))
  = (nil_slice, false, None).
Proof.
  intros Hnew Hcalls. apply Get_absent.
  assert (H0 : cache c0 !! key = None).
  { injection Hnew as <-. apply lookup_empty. }
  clear Hnew. revert c0 H0. unfold after_calls.
  induction Hcalls as [|call calls Hw _ IH]; intros c0 H0; simpl.
  - exact H0.
  - apply IH. now apply after_call_keeps_absent.
Qed.

End MapHistories.

(** * Properties of the result codec of the remote store backend *)

Section Codec.
Implicit Types (fType : GoType) (results todo : list GoVal).
Implicit Types (res : list reflect.Value).

Lemma Out_lt fType i t : reflect.Out fType i = Return t -> (i < reflect.NumOut fType)%nat.
Proof.
  unfold reflect.Out, reflect.NumOut.
  destruct (reflect.underlying fType); try discriminate.
  destruct (outs !! i) eqn:Ho; [|discriminate].
  intros _. now apply lookup_lt_Some in Ho.
Qed.

Lemma Deserialize_loop_length fType todo : forall i res res',
  Deserialize_loop fType i todo res = Return res' -> length res' = length res.
Proof.
  induction todo as [|r todo IH]; intros i res res' Hloop;
    cbn [Deserialize_loop] in Hloop.
  - now injection Hloop as <-.
  - destruct (reflect.Out fType i) as [t|]; [|discriminate].
    destruct (reflect.Set_ _ _) as [v|]; [|discriminate].
    apply IH in Hloop. now rewrite length_insert in Hloop.
Qed.

(** The loop asks the signature for one result type per decoded
    element, so it panics once the elements outnumber the results. *)
Lemma Deserialize_loop_too_many fType todo : forall i res,
  (i <= reflect.NumOut fType)%nat ->
  (reflect.NumOut fType < i + length todo)%nat ->
  Deserialize_loop fType i todo res = Panic.
Proof.
  induction todo as [|r todo IH]; intros i res Hi Hmany;
    cbn [Deserialize_loop length] in *.
  - lia.
  - destruct (reflect.Out fType i) as [t|] eqn:Ho; [|reflexivity].
    apply Out_lt in Ho.
    destruct (reflect.Set_ _ _) as [v|]; [|reflexivity].
    apply IH; lia.
Qed.

Lemma Deserialize_loop_fits fType todo : forall i res res',
  Deserialize_loop fType i todo res = Return res' ->
  (i <= reflect.NumOut fType)%nat ->
  (i + length todo <= reflect.NumOut fType)%nat.
Proof.
  intros i res res' Hloop Hi.
  destruct (le_lt_dec (i + length todo) (reflect.NumOut fType)) as [Hle|Hlt];
    [exact Hle|].
  rewrite (Deserialize_loop_too_many fType todo i res Hi Hlt) in Hloop.
  discriminate.
Qed.

Lemma Deserialize_error (serializedResult : string) fType err :
  json.Unmarshal serializedResult = inl err ->
  RedisCacheImpl_Deserialize serializedResult fType = Return (nil_slice, Some err).
Proof. intros Hu. unfold RedisCacheImpl_Deserialize. now rewrite Hu. Qed.

Lemma Unmarshal_malformed (serializedResult : string) :
  JSON.parse serializedResult = None ->
  json.Unmarshal serializedResult = inl SyntaxError.
Proof. intros Hp. unfold json.Unmarshal. now rewrite Hp. Qed.

(** [Serialize] never fails, and its text tells how many values there
    were and nothing about them. *)
Lemma Serialize_forgets (vs vs' : list reflect.Value) :
  length vs = length vs' ->
  RedisCacheImpl_Serialize (mkslice vs) = RedisCacheImpl_Serialize (mkslice vs').
Proof.
  intros Hlen. unfold RedisCacheImpl_Serialize, json.Marshal.
  assert (Hmap : map (fun _ : reflect.Value => "{}") vs
                 = map (fun _ : reflect.Value => "{}") vs').
  { revert vs' Hlen. induction vs as [|v vs IH]; intros [|v' vs'] Hlen;
      simpl in *; try discriminate; [reflexivity|].
    f_equal. apply IH. lia. }
  now rewrite Hmap.
Qed.

Lemma Serialize_no_error (res : slice reflect.Value) :
  snd (RedisCacheImpl_Serialize res) = None.
Proof. destruct res; reflexivity. Qed.

Lemma Unmarshal_decoded (serializedResult : string) results :
  json.Unmarshal serializedResult = inr results ->
  exists xs, results = map json.decoded xs.
Proof.
  unfold json.Unmarshal.
  destruct (JSON.parse serializedResult) as [[| | | |xs|]|]; try discriminate.
  - intros [= <-]. now exists [].
  - destruct (forallb JSON.in_range xs); [|discriminate].
    intros [= <-]. now exists xs.
Qed.

(** No decoded value is assignable to an int: the decoder builds nil,
    bool, float64, string, []interface{} and map[string]interface{}. *)
Lemma Set_int_decoded (j : JSON.value) :
  reflect.Set_ (reflect.New_Elem TInt) (reflect.ValueOf (json.decoded j)) = Panic.
Proof. destruct j; reflexivity. Qed.

(** So whatever the text, [Deserialize] returns no value for the
    signature [func() int]: it returns an error, or the empty list, or
    panics. *)
Lemma Deserialize_never_int (serializedResult : string)
    (vals : slice reflect.Value) err :
  RedisCacheImpl_Deserialize serializedResult (TFunc [] [TInt]) = Return (vals, err) ->
  elems_of vals = [].
Proof.
  unfold RedisCacheImpl_Deserialize.
  destruct (json.Unmarshal serializedResult) as [e|results] eqn:Hu.
  - intros [= <- _]. reflexivity.
  - destruct (Unmarshal_decoded _ _ Hu) as [[|x xs] ->].
    + intros [= <- _]. reflexivity.
    + cbn [map length repeat Deserialize_loop].
      change (reflect.Out (TFunc [] [TInt]) 0) with (Return TInt).
      cbv iota beta. now rewrite Set_int_decoded.
Qed.

(** C6, as the code has it.  [Deserialize] returns the decoder's error
    whenever the text does not decode into a list, so for every
    malformed text; it never compares the number of decoded elements
    with the arity of the signature: when it returns, it returns no
    error and as many values as the text has elements, and when the
    elements outnumber the results of the signature it panics instead
    of returning an error. *)
Theorem RedisCacheImpl_Deserialize_failures (serializedResult : string) fType :
  (JSON.parse serializedResult = None ->
   RedisCacheImpl_Deserialize serializedResult fType
   = Return (nil_slice, Some SyntaxError))
  /\ (forall err, json.Unmarshal serializedResult = inl err ->
      RedisCacheImpl_Deserialize serializedResult fType
      = Return (nil_slice, Some err))
  /\ (forall results, json.Unmarshal serializedResult = inr results ->
      (reflect.NumOut fType < length results)%nat ->
      RedisCacheImpl_Deserialize serializedResult fType = Panic)
  /\ (forall results (vals : slice reflect.Value) err,
      json.Unmarshal serializedResult = inr results ->
      RedisCacheImpl_Deserialize serializedResult fType = Return (vals, err) ->
      err = None /\ len vals = length results
      /\ (length results <= reflect.NumOut fType)%nat).
Proof.
  split; [|split; [|split]].
  - intros Hp. apply Deserialize_error. now apply Unmarshal_malformed.
  - intros err. apply Deserialize_error.
  - intros results Hu Hmany. unfold RedisCacheImpl_Deserialize. rewrite Hu.
    rewrite Deserialize_loop_too_many; [reflexivity| lia | simpl; lia].
  - intros results vals err Hu Hret.
    unfold RedisCacheImpl_Deserialize in Hret. rewrite Hu in Hret.
    destruct (Deserialize_loop _ _ _ _) as [res'|] eqn:Hloop; [|discriminate].
    injection Hret as <- <-.
    split; [reflexivity|]. split.
    + apply Deserialize_loop_length in Hloop.
      unfold len. simpl. now rewrite Hloop, repeat_length.
    + apply Deserialize_loop_fits in Hloop; simpl in *; lia.
Qed.

End Codec.

Section CodecRoundTrip.
Import reflect.

(** C3. The round trip is lost on the one-element sequence holding the
    int 1 with the signature [func() int]: [Serialize] writes the empty
    object for the value, and [Deserialize] panics when it assigns the
    decoded map to the int result. *)
Theorem RedisCacheImpl_roundtrip_int :
  RedisCacheImpl_Serialize (mkslice [ValueOf (VInt 1)]) = ("[{}]", None)
  /\ RedisCacheImpl_Deserialize "[{}]" (TFunc [] [TInt]) = Panic
  /\ RedisCacheImpl_Deserialize
       (fst (RedisCacheImpl_Serialize (mkslice [ValueOf (VInt 1)])))
       (TFunc [] [TInt])
     <> Return (mkslice [ValueOf (VInt 1)], None).
Proof. repeat split. vm_compute. discriminate. Qed.

(** With a result of type [interface{}] the decoded map is assignable,
    and what comes back is an empty map in place of the value. *)
Lemma RedisCacheImpl_roundtrip_interface :
  RedisCacheImpl_Deserialize
    (fst (RedisCacheImpl_Serialize (mkslice [Val TInterface (VString "a")])))
    (TFunc [] [TInterface])
  = Return (mkslice [Val TInterface (VJSON (JSON.JObject []))], None).
Proof. reflexivity. Qed.

(** The empty sequence and the nil sequence do come back, as the empty
    sequence. *)
Lemma RedisCacheImpl_roundtrip_empty (res : slice Value) fType :
  len res = O ->
  RedisCacheImpl_Deserialize (fst (RedisCacheImpl_Serialize res)) fType
  = Return (mkslice [], None).
Proof.
  destruct res as [|[|v vs]]; intros Hlen; try discriminate; reflexivity.
Qed.

(** C6, as stated, fails: the text [[true]] has one element, the
    signature [func() (bool, string)] two results, and [Deserialize]
    returns the one value and no error. *)
Lemma RedisCacheImpl_Deserialize_short_text :
  NumOut (TFunc [] [TBool; TString]) = 2%nat
  /\ RedisCacheImpl_Deserialize "[true]" (TFunc [] [TBool; TString])
     = Return (mkslice [Val TBool (VBool true)], None).
Proof. split; reflexivity. Qed.

Lemma RedisCacheImpl_Deserialize_failures_witness :
  RedisCacheImpl_Deserialize "[true" (TFunc [] [TBool])
  = Return (nil_slice, Some SyntaxError)
  /\ RedisCacheImpl_Deserialize "{}" (TFunc [] [TBool])
     = Return (nil_slice, Some UnmarshalTypeError)
  /\ RedisCacheImpl_Deserialize "[true,false]" (TFunc [] [TBool]) = Panic.
Proof.
  split; [|split].
  - apply (RedisCacheImpl_Deserialize_failures "[true" (TFunc [] [TBool])).
    reflexivity.
  - apply (RedisCacheImpl_Deserialize_failures "{}" (TFunc [] [TBool])).
    reflexivity.
  - apply (RedisCacheImpl_Deserialize_failures "[true,false]" (TFunc [] [TBool]))
      with (results := [VBool true; VBool false]).
    + reflexivity.
    + cbv. lia.
Defined.

End CodecRoundTrip.

(** * Properties of the remote store backend *)

Section RemoteBackend.
Context {S : Type} `{UniversalClient S}.
Implicit Types (key : string) (fType : GoType) (store : S).
Implicit Types (now : time.Time) (ttl : time.Duration).

Lemma not_redis_Nil (e : error) : e <> redis_Nil -> is_redis_Nil (Some e) = false.
Proof. destruct e; intros Hne; try reflexivity. now destruct Hne. Qed.

(** C4. [Get] on the remote store backend answers the store's reply:
    [redis.Nil] becomes not found without error; any other error comes
    back as it is, with not found; a text without error goes through
    [Deserialize], whose values come back with found, and whose error
    comes back with not found. *)
Theorem RedisCacheImpl_Get_spec key fType now store cachedResult err store' :
  client_Get key now store = ((cachedResult, err), store') ->
  (err = Some redis_Nil ->
   RedisCacheImpl_Get key fType now store
   = (Return (nil_slice, false, None), store'))
  /\ (forall e, err = Some e -> e <> redis_Nil ->
      RedisCacheImpl_Get key fType now store
      = (Return (nil_slice, false, Some e), store'))
  /\ (err = None ->
      RedisCacheImpl_Get key fType now store
      = (match RedisCacheImpl_Deserialize cachedResult fType with
         | Return (returnValue, None) => Return (returnValue, true, None)
         | Return (_, Some e) => Return (nil_slice, false, Some e)
         | Panic => Panic
         end, store')).
Proof.
  intros Hget. unfold RedisCacheImpl_Get. rewrite Hget.
  split; [|split].
  - intros ->. reflexivity.
  - intros e -> Hne. now rewrite (not_redis_Nil e Hne).
  - intros ->. simpl.
    destruct (RedisCacheImpl_Deserialize cachedResult fType) as [[vals [e|]]|];
      reflexivity.
Qed.

(** The remote store backend hands the TTL to the store as it got it. *)
Lemma RedisCacheImpl_Set_forwards key (val : slice reflect.Value) ttl now store :
  RedisCacheImpl_Set key val ttl now store
  = client_Set key (fst (RedisCacheImpl_Serialize val)) ttl now store.
Proof.
  unfold RedisCacheImpl_Set.
  pose proof (Serialize_no_error val) as Hno.
  destruct (RedisCacheImpl_Serialize val) as [txt err]. simpl in *. subst err.
  destruct (client_Set key txt ttl now store) as [[e|] store']; reflexivity.
Qed.

Lemma RedisCacheImpl_Expire_forwards key ttl now store :
  RedisCacheImpl_Expire key ttl now store = client_Expire key ttl now store.
Proof. reflexivity. Qed.

(** Whatever store keeps the text it is given and returns it, [Get]
    after [Set] of an int for [func() int] panics. *)
Lemma RedisCacheImpl_Set_then_Get_int key ttl now store store' store'' (n : Z) :
  client_Set key "[{}]" ttl now store = (None, store') ->
  client_Get key now store' = (("[{}]", None), store'') ->
  RedisCacheImpl_Set key (mkslice [reflect.ValueOf (VInt n)]) ttl now store
  = (None, store')
  /\ RedisCacheImpl_Get key (TFunc [] [TInt]) now store' = (Panic, store'').
Proof.
  intros Hset Hget. split.
  - rewrite RedisCacheImpl_Set_forwards. exact Hset.
  - unfold RedisCacheImpl_Get. rewrite Hget. reflexivity.
Qed.

End RemoteBackend.

Section RemoteBackendRuns.
Import reflect.

(** C1. On the remote store backend the values set do not come back:
    [Set] of the int 1 under a TTL of one second succeeds and stores
    the text [[{}]]; the [Get] that follows at the same instant, with the
    signature [func() int], panics inside [Deserialize]. *)
Theorem RedisCacheImpl_Set_then_Get_int_run :
  RedisCacheImpl_Set "k" (mkslice [ValueOf (VInt 1)]) time.Second 0
                     (∅ : gmap string storeEntry)
  = (None, {["k" := mkStoreEntry "[{}]" (Some time.Second)]})
  /\ RedisCacheImpl_Get "k" (TFunc [] [TInt]) 0
       ({["k" := mkStoreEntry "[{}]" (Some time.Second)]} : gmap string storeEntry)
     = (Panic, {["k" := mkStoreEntry "[{}]" (Some time.Second)]}).
Proof. split; reflexivity. Qed.

(** With a result of type [interface{}] the [Get] returns found, and an
    empty map for the string that was set. *)
Lemma RedisCacheImpl_Set_then_Get_interface_run :
  fst (RedisCacheImpl_Get "k" (TFunc [] [TInterface]) 0
         (snd (RedisCacheImpl_Set "k" (mkslice [Val TInterface (VString "a")])
                 time.Second 0 (∅ : gmap string storeEntry))))
  = Return (mkslice [Val TInterface (VJSON (JSON.JObject []))], true, None).
Proof. reflexivity. Qed.

(** Over a store for which a zero expiration means no expiration time,
    what [Set] writes with a TTL of 0 is found at every later instant. *)
Lemma RedisCacheImpl_Set_zero_ttl_run (now' : time.Time) :
  fst (RedisCacheImpl_Get "k" (TFunc [] []) now'
         (snd (RedisCacheImpl_Set "k" (mkslice []) 0 0 (∅ : gmap string storeEntry))))
  = Return (mkslice [], true, None).
Proof. reflexivity. Qed.

Lemma RedisCacheImpl_Get_spec_witness :
  RedisCacheImpl_Get "k" (TFunc [] [TBool]) 0 (∅ : gmap string storeEntry)
  = (Return (nil_slice, false, None), ∅).
Proof.
  apply (RedisCacheImpl_Get_spec "k" (TFunc [] [TBool]) 0
           (∅ : gmap string storeEntry) "" (Some redis_Nil) ∅);
    reflexivity.
Defined.

End RemoteBackendRuns.

(** * TTLs that are not positive *)

Section NonPositiveTTL.
Import reflect.
Context {S : Type} `{UniversalClient S}.
Implicit Types (c : MapCacheImpl) (key : string) (store : S).
Implicit Types (now : time.Time) (ttl : time.Duration).

(** On the local map backend a TTL of at most 0 leaves the key not
    retrievable: [Set] stores the entry with an
    expiry that is not after the current time, so the entry stays in
    the table and no [Get] from then on finds it; [Expire] removes the
    key from the table.  Every entry of the table has an expiry from
    which on [Get] does not find it.  The remote store backend hands
    the TTL unchanged to the store, in [Set] and in [Expire]. *)
Theorem nonpositive_ttl_spec (mu : MuLockImpl) key (val : slice Value)
    ttl now c store :
  ttl <= 0 -> lock mu = None -> unlock mu = None ->
  (cache (snd (MapCacheImpl_Set key val ttl now c)) !! key
   = Some (mkEntry val (now + ttl))
   /\ forall now' fType, now <= now' ->
      fst (MapCacheImpl_Get key fType now'
             (snd (MapCacheImpl_Set key val ttl now c)))
      = (nil_slice, false, None))
  /\ (fst (MapCacheImpl_Expire mu key ttl now c) = Return None
      /\ cache (snd (MapCacheImpl_Expire mu key ttl now c)) !! key = None)
  /\ (forall key' e now' fType,
      cache c !! key' = Some e -> expiryTime e <= now' ->
      fst (MapCacheImpl_Get key' fType now' c) = (nil_slice, false, None))
  /\ RedisCacheImpl_Set key val ttl now store
     = client_Set key (fst (RedisCacheImpl_Serialize val)) ttl now store
  /\ RedisCacheImpl_Expire key ttl now store = client_Expire key ttl now store.
Proof.
  intros Httl Hl Hu. split; [|split; [|split; [|split]]].
  - split; [apply Set_lookup|].
    intros now' fType Hnow.
    apply (Get_stale _ _ _ _ (mkEntry val (time.Add now ttl))).
    + apply Set_lookup.
    + simpl. unfold time.Add. lia.
  - destruct (cache c !! key) as [e|] eqn:Hk.
    + rewrite (Expire_delete mu Hl Hu key ttl now c e Hk Httl). simpl.
      split; [reflexivity|apply lookup_delete_eq].
    + rewrite (Expire_absent mu Hl Hu key ttl now c Hk). now split.
  - intros key' e now' fType Hk Hexp. now apply (Get_stale _ _ _ _ e).
  - apply RedisCacheImpl_Set_forwards.
  - apply RedisCacheImpl_Expire_forwards.
Qed.

End NonPositiveTTL.

Section NonPositiveTTLRuns.
Import reflect.

(** On the local map backend [Set] with a TTL of 0 deletes nothing: the
    entry is in the table afterwards, and an [Expire] with a positive TTL
    makes the next [Get] find the value. *)
Lemma nonpositive_ttl_Set_keeps_entry :
  cache (snd (MapCacheImpl_Set "k" (mkslice [ValueOf (VInt 1)]) 0 10
                (mkMapCache ∅))) !! "k"
  = Some (mkEntry (mkslice [ValueOf (VInt 1)]) 10)
  /\ fst (MapCacheImpl_Get "k" (TFunc [] [TInt]) 30
            (snd (MapCacheImpl_Expire heldLock "k" 100 20
                    (snd (MapCacheImpl_Set "k" (mkslice [ValueOf (VInt 1)]) 0 10
                            (mkMapCache ∅))))))
     = (mkslice [ValueOf (VInt 1)], true, None).
Proof. split; reflexivity. Qed.

Lemma nonpositive_ttl_spec_witness :
  cache (snd (MapCacheImpl_Expire heldLock "k" 0 10
                (mkMapCache {["k" := mkEntry (mkslice [ValueOf (VInt 1)]) 50]})))
    !! "k" = None.
Proof.
  apply (nonpositive_ttl_spec (S := gmap string storeEntry) heldLock "k"
           (mkslice [ValueOf (VInt 1)]) 0 10
           (mkMapCache {["k" := mkEntry (mkslice [ValueOf (VInt 1)]) 50]}) ∅);
    [lia | reflexivity | reflexivity].
Defined.

(** C7. On the remote store backend a TTL of 0 caches for ever.  [Set]
    hands the TTL to the store without a guard; the store, for which a
    zero expiration means no expiration time, keeps the text without a
    deadline, and [Get] finds the key at every later instant: for a list
    without values, and for a value of a function that returns
    [interface{}].  On the local map backend the same [Set] stores an
    entry that no [Get] finds. *)
Theorem RedisCacheImpl_Set_zero_ttl_cached :
  RedisCacheImpl_Set "k" (mkslice []) 0 0 (∅ : gmap string storeEntry)
  = (None, {["k" := mkStoreEntry "[]" None]})
  /\ (forall now' : time.Time,
      RedisCacheImpl_Get "k" (TFunc [] []) now'
        ({["k" := mkStoreEntry "[]" None]} : gmap string storeEntry)
      = (Return (mkslice [], true, None), {["k" := mkStoreEntry "[]" None]}))
  /\ RedisCacheImpl_Set "k" (mkslice [Val TInterface (VString "a")]) 0 0
       (∅ : gmap string storeEntry)
     = (None, {["k" := mkStoreEntry "[{}]" None]})
  /\ (forall now' : time.Time,
      RedisCacheImpl_Get "k" (TFunc [] [TInterface]) now'
        ({["k" := mkStoreEntry "[{}]" None]} : gmap string storeEntry)
      = (Return (mkslice [Val TInterface emptyMap], true, None),
         {["k" := mkStoreEntry "[{}]" None]}))
  /\ (forall now' : time.Time,
      fst (MapCacheImpl_Get "k" (TFunc [] []) (Z.max 0 now')
             (snd (MapCacheImpl_Set "k" (mkslice []) 0 0 (mkMapCache ∅))))
      = (nil_slice, false, None)).
Proof.
  split; [reflexivity|]. split; [intros now'; reflexivity|].
  split; [reflexivity|]. split; [intros now'; reflexivity|].
  intros now'.
  apply (Get_stale "k" (TFunc [] []) (Z.max 0 now') _ (mkEntry (mkslice []) 0)).
  - reflexivity.
  - simpl. lia.
Qed.

End NonPositiveTTLRuns.

(** * Properties of the key deriver *)

Section KeyDeriver.
Import reflect.
Variable decodedText : JSON.value -> string.
Implicit Types (fName key : string) (args : list Value).

Lemma string_app_assoc (a b c : string) : ((a ++ b) ++ c = a ++ (b ++ c))%string.
Proof.
  induction a as [|x a IH]; [reflexivity|].
  change (String x ((a ++ b) ++ c) = String x (a ++ (b ++ c)))%string.
  now rewrite IH.
Qed.

Lemma Key_loop_valid args : forall key,
  Forall valid args ->
  Key_loop decodedText key args
  = Return (key ++ fold_right String.append "" (map (argText decodedText) args))%string.
Proof.
  induction args as [|arg args IH]; intros key Hvalid; cbn [Key_loop map fold_right].
  - f_equal. induction key as [|x key IHk]; [reflexivity|].
    change (String x key = String x (key ++ ""))%string. now rewrite <- IHk.
  - inversion Hvalid as [|? ? Harg Hargs]; subst.
    unfold argText at 1. unfold valid in Harg.
    destruct (Interface arg) as [a|]; [|now destruct Harg].
    rewrite (IH _ Hargs). now rewrite string_app_assoc.
Qed.

(** The zero Value among the arguments makes [Key] panic. *)
Lemma Key_loop_zero args args' : forall key,
  Forall valid args ->
  Key_loop decodedText key (args ++ Zero :: args') = Panic.
Proof.
  induction args as [|arg args IH]; intros key Hvalid; cbn [Key_loop app].
  - reflexivity.
  - inversion Hvalid as [|? ? Harg Hargs]; subst.
    unfold valid in Harg.
    destruct (Interface arg) as [a|]; [|now destruct Harg].
    now apply IH.
Qed.

(** C8. For valid arguments [Key] returns the function name followed
    by the %v text of each argument in order, with nothing in between;
    equal names and arguments give equal keys; and the keys of
    [("Add", [1, 2])] and [("Add", [2, 1])] are ["Add12"] and ["Add21"]. *)
Theorem CacheKeyImpl_Key_spec fName args :
  Forall valid args ->
  CacheKeyImpl_Key decodedText fName (mkslice args)
  = Return (fName ++ fold_right String.append ""
                       (map (fun arg => match Interface arg with
                                        | Return x => fmt.Sprint_v decodedText x
                                        | Panic => ""
                                        end) args))%string
  /\ (forall fName' args', fName' = fName -> args' = args ->
      CacheKeyImpl_Key decodedText fName' (mkslice args')
      = CacheKeyImpl_Key decodedText fName (mkslice args))
  /\ CacheKeyImpl_Key decodedText "Add" (mkslice [ValueOf (VInt 1); ValueOf (VInt 2)])
     = Return "Add12"
  /\ CacheKeyImpl_Key decodedText "Add" (mkslice [ValueOf (VInt 2); ValueOf (VInt 1)])
     = Return "Add21"
  /\ CacheKeyImpl_Key decodedText "Add" (mkslice [ValueOf (VInt 1); ValueOf (VInt 2)])
     <> CacheKeyImpl_Key decodedText "Add" (mkslice [ValueOf (VInt 2); ValueOf (VInt 1)]).
Proof.
  intros Hvalid. split; [|split; [|split; [|split]]].
  - unfold CacheKeyImpl_Key. cbn [elems_of].
    rewrite (Key_loop_valid args fName Hvalid). reflexivity.
  - intros fName' args' -> ->. reflexivity.
  - reflexivity.
  - reflexivity.
  - vm_compute. discriminate.
Qed.

End KeyDeriver.

Section Witnesses.
Import reflect.

Lemma CacheKeyImpl_Key_spec_witness :
  CacheKeyImpl_Key (fun _ => "") "Mul"
    (mkslice [ValueOf (VInt 3); ValueOf (VString "x"); Val TInterface VNil])
  = Return "Mul3x<nil>".
Proof.
  refine (proj1 (CacheKeyImpl_Key_spec (fun _ => "") "Mul"
                   [ValueOf (VInt 3); ValueOf (VString "x"); Val TInterface VNil] _)).
  repeat (constructor; [vm_compute; discriminate|]). constructor.
Defined.

Lemma MapCacheImpl_Get_spec_witness :
  let '(v, found, err) :=
    fst (MapCacheImpl_Get "k" (TFunc [] [TInt]) 5
           (mkMapCache {["k" := mkEntry (mkslice [ValueOf (VInt 1)]) 9]})) in
  err = None
  /\ (found = true <->
      exists e, ({["k" := mkEntry (mkslice [ValueOf (VInt 1)]) 9]}
                 : gmap string cacheEntry) !! "k" = Some e /\ 5 < expiryTime e)
  /\ (forall e, ({["k" := mkEntry (mkslice [ValueOf (VInt 1)]) 9]}
                 : gmap string cacheEntry) !! "k" = Some e ->
      5 < expiryTime e -> v = value e)
  /\ (found = false -> v = nil_slice)
  /\ (({["k" := mkEntry (mkslice [ValueOf (VInt 1)]) 9]}
       : gmap string cacheEntry) !! "k" = None -> found = false).
Proof.
  exact (MapCacheImpl_Get_spec "k" (TFunc [] [TInt]) 5
           (mkMapCache {["k" := mkEntry (mkslice [ValueOf (VInt 1)]) 9]})).
Defined.

Lemma MapCacheImpl_Expire_spec_witness :
  exists c',
    MapCacheImpl_Expire heldLock "k" 7 5
      (mkMapCache {["k" := mkEntry (mkslice [ValueOf (VInt 1)]) 9]})
    = (Return None, c')
    /\ cache c' !! "k" = Some (mkEntry (mkslice [ValueOf (VInt 1)]) 12).
Proof.
  destruct (MapCacheImpl_Expire_spec heldLock "k" 7 5
              (mkMapCache {["k" := mkEntry (mkslice [ValueOf (VInt 1)]) 9]})
              eq_refl eq_refl) as [c' [Hrun [_ [_ Hrefresh]]]].
  exists c'. split; [exact Hrun|].
  rewrite (Hrefresh (mkEntry (mkslice [ValueOf (VInt 1)]) 9)).
  - reflexivity.
  - reflexivity.
  - lia.
Defined.

End Witnesses.

(** * Further properties of the local map backend *)

Section MapCalls.
Implicit Types (c : MapCacheImpl) (key : string) (e : cacheEntry).
Implicit Types (now : time.Time) (ttl : time.Duration) (fType : GoType).
Implicit Types (mu : MuLockImpl).

(** X1. A [Get] that follows a [Set] of the same key finds the value
    set exactly while its clock reading is before [now + ttl]; from that
    instant on, and at once when the TTL is not positive, it reports not
    found, with the nil list. *)
Theorem MapCacheImpl_Get_after_Set key (val : slice reflect.Value) ttl fType
    now now' c :
  fst (MapCacheImpl_Get key fType now' (snd (MapCacheImpl_Set key val ttl now c)))
  = if now' <? now + ttl then (val, true, None) else (nil_slice, false, None).
Proof.
  unfold MapCacheImpl_Get. rewrite Set_lookup. simpl.
  unfold time.After, time.Add. now destruct (now' <? now + ttl).
Qed.

(** X2. The last [Set] of a key wins: the table after two of them is
    the table after the second alone. *)
Theorem MapCacheImpl_Set_overwrites key (v1 v2 : slice reflect.Value)
    ttl1 ttl2 now1 now2 c :
  snd (MapCacheImpl_Set key v2 ttl2 now2 (snd (MapCacheImpl_Set key v1 ttl1 now1 c)))
  = snd (MapCacheImpl_Set key v2 ttl2 now2 c).
Proof. simpl. now rewrite insert_insert_eq. Qed.

(** X3. [Set] of one key changes what [Get] answers for no other key. *)
Theorem MapCacheImpl_Set_frame key key' (val : slice reflect.Value) ttl fType
    now now' c :
  key <> key' ->
  MapCacheImpl_Get key' fType now' (snd (MapCacheImpl_Set key val ttl now c))
  = (fst (MapCacheImpl_Get key' fType now' c),
     snd (MapCacheImpl_Set key val ttl now c)).
Proof.
  intros Hne. unfold MapCacheImpl_Get at 1 2.
  rewrite (Set_lookup_other key key' val ttl now c Hne).
  destruct (cache c !! key') as [e|]; [|reflexivity].
  destruct (time.After (expiryTime e) now'); reflexivity.
Qed.

Lemma Expire_lookup_other mu key key' ttl now c :
  key <> key' ->
  cache (snd (MapCacheImpl_Expire mu key ttl now c)) !! key' = cache c !! key'.
Proof.
  intros Hne. unfold MapCacheImpl_Expire.
  destruct (lock mu); [reflexivity|].
  destruct (cache c !! key) as [e|].
  - destruct (ttl <=? 0); simpl; destruct (unlock mu); simpl;
      first [now apply lookup_delete_ne | now apply lookup_insert_ne].
  - destruct (unlock mu); reflexivity.
Qed.

Lemma Expire_lookup_value mu key key' ttl now c e :
  cache (snd (MapCacheImpl_Expire mu key ttl now c)) !! key' = Some e ->
  exists e0, cache c !! key' = Some e0 /\ value e0 = value e.
Proof.
  destruct (decide (key = key')) as [<-|Hne].
  - unfold MapCacheImpl_Expire.
    destruct (lock mu); [intros Hk; now exists e|].
    destruct (cache c !! key) as [e0|] eqn:Hk0.
    + destruct (ttl <=? 0); simpl; destruct (unlock mu); simpl;
        rewrite ?lookup_delete_eq, ?lookup_insert_eq; try discriminate;
        intros [= <-]; now exists e0.
    + destruct (unlock mu); simpl; rewrite Hk0; discriminate.
  - rewrite (Expire_lookup_other mu key key' ttl now c Hne).
    intros Hk. now exists e.
Qed.

(** X4. [Expire] of one key leaves the entry of every other key as it
    is, whatever the TTL and whether or not the lock works. *)
Theorem MapCacheImpl_Expire_frame mu key key' ttl fType now now' c :
  key <> key' ->
  cache (snd (MapCacheImpl_Expire mu key ttl now c)) !! key' = cache c !! key'
  /\ fst (MapCacheImpl_Get key' fType now' (snd (MapCacheImpl_Expire mu key ttl now c)))
     = fst (MapCacheImpl_Get key' fType now' c).
Proof.
  intros Hne.
  pose proof (Expire_lookup_other mu key key' ttl now c Hne) as Hk.
  split; [exact Hk|]. unfold MapCacheImpl_Get. rewrite Hk.
  destruct (cache c !! key') as [e|]; [|reflexivity].
  destruct (time.After (expiryTime e) now'); reflexivity.
Qed.

(** X5. [Expire] on the local map backend never returns an error: it
    returns nil when the lock is taken and released, and panics
    otherwise.  A lock that cannot be taken leaves the table untouched; a
    lock that cannot be released panics after the key has been deleted or
    stored again. *)
Theorem MapCacheImpl_Expire_outcome mu key ttl now c :
  fst (MapCacheImpl_Expire mu key ttl now c)
  = match lock mu, unlock mu with
    | None, None => Return None
    | _, _ => Panic
    end
  /\ (lock mu <> None -> snd (MapCacheImpl_Expire mu key ttl now c) = c)
  /\ (lock mu = None ->
      snd (MapCacheImpl_Expire mu key ttl now c)
      = snd (MapCacheImpl_Expire heldLock key ttl now c)).
Proof.
  unfold MapCacheImpl_Expire. cbn [lock unlock heldLock].
  destruct (lock mu) as [lockerr|].
  - split; [reflexivity|]. split; [reflexivity|discriminate].
  - split; [|split].
    + destruct (cache c !! key) as [e|]; [destruct (ttl <=? 0)|];
        simpl; destruct (unlock mu); reflexivity.
    + intros Hn. now destruct Hn.
    + intros _.
      destruct (cache c !! key) as [e|]; [destruct (ttl <=? 0)|];
        simpl; destruct (unlock mu); reflexivity.
Qed.

(** X6. [Expire] with a positive TTL brings back an entry that is still
    in the table, stale or not: until [now + ttl], [Get] finds the value
    the entry holds. *)
Theorem MapCacheImpl_Expire_revives mu key ttl fType now now' c e :
  lock mu = None -> unlock mu = None ->
  cache c !! key = Some e -> 0 < ttl -> now' < now + ttl ->
  fst (MapCacheImpl_Get key fType now' (snd (MapCacheImpl_Expire mu key ttl now c)))
  = (value e, true, None).
Proof.
  intros Hl Hu Hk Httl Hnow.
  rewrite (Expire_refresh mu Hl Hu key ttl now c e Hk Httl). simpl.
  apply (Get_fresh _ _ _ _ (mkEntry (value e) (time.Add now ttl))).
  - simpl. apply lookup_insert_eq.
  - simpl. unfold time.Add. lia.
Qed.

(** X7. What [Get] finds at some instant it finds, with the same value,
    at every earlier instant, on the same table; so a key not found stays
    not found as the clock advances. *)
Theorem MapCacheImpl_Get_earlier key fType now now' c
    (v : slice reflect.Value) err :
  fst (MapCacheImpl_Get key fType now' c) = (v, true, err) -> now <= now' ->
  fst (MapCacheImpl_Get key fType now c) = (v, true, None).
Proof.
  unfold MapCacheImpl_Get.
  destruct (cache c !! key) as [e|]; [|discriminate].
  destruct (time.After (expiryTime e) now') eqn:Ha; [|discriminate].
  intros [= <- _] Hle. apply After_lt in Ha.
  assert (Ha' : time.After (expiryTime e) now = true) by (apply After_lt; lia).
  now rewrite Ha'.
Qed.

(** X8. [NewMapCacheImpl] panics when it gets more than one size and
    otherwise returns a backend in which no key is found. *)
Theorem NewMapCacheImpl_empty (size : list Z) :
  ((length size <= 1)%nat ->
   exists c0, NewMapCacheImpl size = Return c0
     /\ forall key fType now,
        MapCacheImpl_Get key fType now c0 = ((nil_slice, false, None), c0))
  /\ ((1 < length size)%nat -> NewMapCacheImpl size = Panic).
Proof.
  unfold NewMapCacheImpl. split; intros Hlen.
  - assert (Hf : (1 <? length size)%nat = false) by (apply Nat.ltb_ge; lia).
    rewrite Hf. eexists. split; [reflexivity|].
    intros key fType now. unfold MapCacheImpl_Get. simpl.
    now rewrite lookup_empty.
  - assert (Ht : (1 <? length size)%nat = true) by (apply Nat.ltb_lt; lia).
    now rewrite Ht.
Qed.

Lemma after_calls_provenance key e calls : forall c,
  cache (after_calls calls c) !! key = Some e ->
  (exists e0, cache c !! key = Some e0 /\ value e0 = value e)
  \/ Exists (fun call => match call with
                         | callSet k v _ _ => k = key /\ v = value e
                         | _ => False
                         end) calls.
Proof.
  unfold after_calls.
  induction calls as [|call calls IH]; intros c Hk; simpl in Hk.
  - left. now exists e.
  - destruct (IH _ Hk) as [[e1 [Hk1 Hv1]]|Hex]; [|right; now apply Exists_cons_tl].
    destruct call as [k t n|k v d n|mu k d n]; simpl in Hk1.
    + left. exists e1. split; [|exact Hv1].
      unfold MapCacheImpl_Get in Hk1.
      destruct (cache c !! k) as [e'|]; [|exact Hk1].
      destruct (time.After (expiryTime e') n); exact Hk1.
    + destruct (decide (k = key)) as [->|Hne].
      * rewrite lookup_insert_eq in Hk1. injection Hk1 as <-.
        right. apply Exists_cons_hd. now split.
      * rewrite lookup_insert_ne in Hk1 by exact Hne.
        left. now exists e1.
    + destruct (Expire_lookup_value mu k key d n c e1 Hk1) as [e0 [Hk0 Hv0]].
      left. exists e0. split; [exact Hk0|congruence].
Qed.

(** X9. Whatever has been called on a backend since it was made, the
    value list of every entry of its table is one that some [Set] was
    given for that very key: [Get] and [Expire] create no entry and put
    no other value in one. *)
Theorem MapCacheImpl_values_from_Set (size : list Z) c0 calls key e :
  NewMapCacheImpl size = Return c0 ->
  cache (after_calls calls c0) !! key = Some e ->
  Exists (fun call => match call with
                      | callSet k v _ _ => k = key /\ v = value e
                      | _ => False
                      end) calls.
Proof.
  intros Hnew Hk.
  destruct (after_calls_provenance key e calls c0 Hk) as [[e0 [Hk0 _]]|Hex];
    [|exact Hex].
  unfold NewMapCacheImpl in Hnew.
  destruct (1 <? length size)%nat; [discriminate|].
  injection Hnew as <-. simpl in Hk0. rewrite lookup_empty in Hk0. discriminate.
Qed.

End MapCalls.

(** * Properties of the sweep *)

Section Sweep.
Implicit Types (c : MapCacheImpl) (key k : string) (e : cacheEntry).
Implicit Types (now n : time.Time) (mu : MuLockImpl).
Implicit Types (order : list (string * time.Time)) (logged : list error).

Lemma Before_lt (t u : time.Time) : time.Before t u = true <-> t < u.
Proof. unfold time.Before. apply Z.ltb_lt. Qed.

Lemma Before_ge (t u : time.Time) : time.Before t u = false <-> u <= t.
Proof. unfold time.Before. apply Z.ltb_ge. Qed.

Lemma Expire_zero_lookup mu key k now c e :
  cache (snd (MapCacheImpl_Expire mu key 0 now c)) !! k = Some e ->
  cache c !! k = Some e.
Proof.
  unfold MapCacheImpl_Expire.
  destruct (lock mu); [trivial|].
  destruct (cache c !! key) as [e0|].
  - change (0 <=? 0) with true. cbv iota.
    destruct (unlock mu); simpl; intros Hk;
      apply lookup_delete_Some in Hk; tauto.
  - destruct (unlock mu); trivial.
Qed.

(** A pass only removes: an entry of the table after it was there, the
    same, before it. *)
Lemma range_subset mu order : forall logged c k e,
  cache (snd (PeriodicExpire_range mu order logged c)) !! k = Some e ->
  cache c !! k = Some e.
Proof.
  induction order as [|[key now] order IH]; intros logged c k e Hk;
    cbn [PeriodicExpire_range] in Hk; [exact Hk|].
  destruct (cache c !! key) as [entry|]; [|now apply IH in Hk].
  destruct (time.Before (expiryTime entry) now); [|now apply IH in Hk].
  pose proof (Expire_zero_lookup mu key k now c e) as Hz.
  destruct (MapCacheImpl_Expire mu key 0 now c) as [[[err|]|] c'];
    simpl in *; [apply IH in Hk| apply IH in Hk|]; auto.
Qed.

Lemma range_keeps_absent mu order logged c k :
  cache c !! k = None ->
  cache (snd (PeriodicExpire_range mu order logged c)) !! k = None.
Proof.
  intros Hk.
  destruct (cache (snd (PeriodicExpire_range mu order logged c)) !! k)
    as [e|] eqn:Hk'; [|reflexivity].
  apply range_subset in Hk'. congruence.
Qed.

(** An entry is kept when every reading taken for its key is at or
    before its expiry. *)
Lemma range_keeps mu order : forall logged c k e,
  cache c !! k = Some e ->
  (forall n, In (k, n) order -> n <= expiryTime e) ->
  cache (snd (PeriodicExpire_range mu order logged c)) !! k = Some e.
Proof.
  induction order as [|[key now] order IH]; intros logged c k e Hk Hfresh;
    cbn [PeriodicExpire_range]; [exact Hk|].
  assert (Htl : forall n, In (k, n) order -> n <= expiryTime e).
  { intros n Hin. apply Hfresh. now right. }
  destruct (cache c !! key) as [entry|] eqn:Hkey; [|now apply IH].
  destruct (time.Before (expiryTime entry) now) eqn:Hb; [|now apply IH].
  assert (Hne : key <> k).
  { intros ->. assert (entry = e) by congruence. subst entry.
    apply Before_lt in Hb. specialize (Hfresh now (or_introl eq_refl)). lia. }
  pose proof (Expire_lookup_other mu key k 0 now c Hne) as Hother.
  destruct (MapCacheImpl_Expire mu key 0 now c) as [[[err|]|] c'];
    simpl in *;
    [apply IH; [congruence|exact Htl]| apply IH; [congruence|exact Htl]|congruence].
Qed.

(** An entry that is gone after a pass was reached at a reading after
    its expiry. *)
Lemma range_removed_late mu order : forall logged c k e,
  cache c !! k = Some e ->
  cache (snd (PeriodicExpire_range mu order logged c)) !! k = None ->
  exists n, In (k, n) order /\ expiryTime e < n.
Proof.
  induction order as [|[key now] order IH]; intros logged c k e Hk Hgone;
    cbn [PeriodicExpire_range] in Hgone; [simpl in Hgone; congruence|].
  assert (Hnext : forall logged' c', cache c' !! k = Some e ->
            cache (snd (PeriodicExpire_range mu order logged' c')) !! k = None ->
            exists n, In (k, n) ((key, now) :: order) /\ expiryTime e < n).
  { intros logged' c' Hk' Hgone'.
    destruct (IH logged' c' k e Hk' Hgone') as [n [Hin Hlt]].
    exists n. split; [now right|exact Hlt]. }
  destruct (cache c !! key) as [entry|] eqn:Hkey; [|now apply (Hnext logged c)].
  destruct (time.Before (expiryTime entry) now) eqn:Hb; [|now apply (Hnext logged c)].
  destruct (decide (key = k)) as [->|Hne].
  - assert (entry = e) by congruence. subst entry. apply Before_lt in Hb.
    exists now. split; [now left|exact Hb].
  - pose proof (Expire_lookup_other mu key k 0 now c Hne) as Hother.
    destruct (MapCacheImpl_Expire mu key 0 now c) as [[[err|]|] c'];
      simpl in *.
    + eapply Hnext; [|exact Hgone]. congruence.
    + eapply Hnext; [|exact Hgone]. congruence.
    + congruence.
Qed.

Section WorkingLock.
Variable mu : MuLockImpl.
Hypothesis lock_ok : lock mu = None.
Hypothesis unlock_ok : unlock mu = None.


End WorkingLock.


(** X11. A pass of the sweep only removes entries, whether or not the
    lock works: it adds no key and changes no entry, and it keeps every
    entry whose expiry is not before the readings taken for its key; so
    an entry that expires at the very instant of the reading stays in the
    table. *)
Theorem PeriodicExpire_pass_keeps mu order c k :
  (forall e, cache (snd (PeriodicExpire_pass mu order c)) !! k = Some e ->
             cache c !! k = Some e)
  /\ (forall e, cache c !! k = Some e ->
      (forall n, In (k, n) order -> n <= expiryTime e) ->
      cache (snd (PeriodicExpire_pass mu order c)) !! k = Some e).
Proof.
  unfold PeriodicExpire_pass. split.
  - intros e. apply range_subset.
  - intros e. apply range_keeps.
Qed.

(** X12. A pass of the sweep changes no later answer of [Get]: at an
    instant that is not before the readings of the pass, [Get] returns
    for every key what it would have returned without the pass. *)
Theorem PeriodicExpire_pass_unseen mu order c key fType now' :
  (forall k n, In (k, n) order -> n <= now') ->
  fst (MapCacheImpl_Get key fType now' (snd (PeriodicExpire_pass mu order c)))
  = fst (MapCacheImpl_Get key fType now' c).
Proof.
  intros Hclock. unfold PeriodicExpire_pass.
  destruct (cache c !! key) as [e|] eqn:Hk.
  - destruct (cache (snd (PeriodicExpire_range mu order [] c)) !! key)
      as [e'|] eqn:Hk'.
    + pose proof (range_subset mu order [] c key e' Hk') as Hsame.
      assert (e' = e) by congruence. subst e'.
      unfold MapCacheImpl_Get. rewrite Hk, Hk'.
      destruct (time.After (expiryTime e) now'); reflexivity.
    + destruct (range_removed_late mu order [] c key e Hk Hk') as [n [Hin Hlt]].
      specialize (Hclock key n Hin).
      rewrite (Get_absent key fType now' _ Hk').
      symmetry. apply (Get_stale key fType now' c e Hk). lia.
  - rewrite (Get_absent key fType now' c Hk).
    apply Get_absent. now apply range_keeps_absent.
Qed.

(** X13. When the lock cannot be taken, a pass panics at the first entry
    it reaches after the entry's expiry, with the table untouched. *)
Theorem PeriodicExpire_pass_lock_failure mu key now order c e lockerr :
  lock mu = Some lockerr ->
  cache c !! key = Some e -> expiryTime e < now ->
  (forall k n e', In (k, n) order -> cache c !! k = Some e' -> n <= expiryTime e') ->
  PeriodicExpire_pass mu (order ++ (key, now) :: nil) c = (Panic, c).
Proof.
  intros Hl Hk Hlt. unfold PeriodicExpire_pass. generalize (@nil error).
  induction order as [|[k n] order IH]; intros logged Hfresh;
    cbn [PeriodicExpire_range app].
  - rewrite Hk. apply Before_lt in Hlt. rewrite Hlt.
    now rewrite (Expire_lock_failure mu key 0 now c lockerr Hl).
  - assert (Htl : forall k0 n0 e', In (k0, n0) order ->
              cache c !! k0 = Some e' -> n0 <= expiryTime e').
    { intros k0 n0 e' Hin. apply Hfresh. now right. }
    destruct (cache c !! k) as [entry|] eqn:Hentry; [|now apply IH].
    assert (Hb : time.Before (expiryTime entry) n = false).
    { apply Before_ge. apply (Hfresh k n entry); [now left|exact Hentry]. }
    rewrite Hb. now apply IH.
Qed.

End Sweep.

(** * Further properties of the result codec *)

Section CodecLoop.
Import reflect.
Implicit Types (fType t : GoType) (results todo : list GoVal) (r : GoVal).
Implicit Types (res : list Value).

Lemma Set_accepts t r :
  Set_ (New_Elem t) (ValueOf r) = if accepts t r then Return (Val t r) else Panic.
Proof.
  unfold accepts, ValueOf, Set_, New_Elem.
  destruct (dynType r) as [xt|]; [|reflexivity].
  destruct (directlyAssignable t xt); [reflexivity|].
  destruct (implements t xt); reflexivity.
Qed.

Lemma Deserialize_loop_typed fType todo : forall i res res',
  Deserialize_loop fType i todo res = Return res' ->
  (i + length todo <= length res)%nat ->
  (forall j, (j < i)%nat -> res' !! j = res !! j)
  /\ (forall k r, todo !! k = Some r ->
      exists t, Out fType (i + k) = Return t /\ accepts t r = true
                /\ res' !! (i + k)%nat = Some (Val t r)).
Proof.
  induction todo as [|r0 todo IH]; intros i res res' Hloop Hlen;
    cbn [Deserialize_loop length] in *.
  - injection Hloop as <-. split; [reflexivity|]. intros k r Hk. discriminate.
  - destruct (Out fType i) as [t|] eqn:Ho; [|discriminate].
    rewrite Set_accepts in Hloop.
    destruct (accepts t r0) eqn:Hacc; [|discriminate].
    destruct (IH (S i) (<[i:=Val t r0]> res) res' Hloop) as [Hbefore Hat].
    { rewrite length_insert. lia. }
    split.
    + intros j Hj. rewrite Hbefore by lia.
      apply list_lookup_insert_ne. lia.
    + intros [|k] r Hk; simpl in Hk.
      * injection Hk as <-. exists t. rewrite Nat.add_0_r.
        split; [exact Ho|]. split; [exact Hacc|].
        rewrite Hbefore by lia. apply list_lookup_insert_eq. lia.
      * destruct (Hat k r Hk) as [t' [Ho' [Hacc' Hres']]].
        exists t'. now replace (i + S k)%nat with (S i + k)%nat by lia.
Qed.

Lemma Deserialize_loop_accepts fType todo : forall i res,
  (forall k r, todo !! k = Some r ->
     exists t, Out fType (i + k) = Return t /\ accepts t r = true) ->
  exists res', Deserialize_loop fType i todo res = Return res'.
Proof.
  induction todo as [|r0 todo IH]; intros i res Hacc; cbn [Deserialize_loop].
  - now exists res.
  - destruct (Hacc O r0 eq_refl) as [t [Ho Ha]].
    rewrite Nat.add_0_r in Ho. rewrite Ho, Set_accepts, Ha.
    apply IH. intros k r Hk.
    destruct (Hacc (S k) r Hk) as [t' [Ho' Ha']].
    exists t'. now replace (S i + k)%nat with (i + S k)%nat by lia.
Qed.

Lemma Deserialize_decoded (serializedResult : string) fType results :
  json.Unmarshal serializedResult = inr results ->
  RedisCacheImpl_Deserialize serializedResult fType
  = match Deserialize_loop fType 0 results (repeat Zero (length results)) with
    | Return res' => Return (mkslice res', None)
    | Panic => Panic
    end.
Proof. intros Hu. unfold RedisCacheImpl_Deserialize. now rewrite Hu. Qed.

(** X14. What [Deserialize] returns without error is typed by
    position: a non-nil list with one value per element of the text, the
    [k]-th of the type [fType.Out(k)] and holding the [k]-th decoded
    element, which is not nil and is assignable to that type. *)
Theorem RedisCacheImpl_Deserialize_typed (serializedResult : string) fType
    results (vals : slice Value) :
  json.Unmarshal serializedResult = inr results ->
  RedisCacheImpl_Deserialize serializedResult fType = Return (vals, None) ->
  exists res, vals = mkslice res /\ length res = length results
    /\ forall k r, results !! k = Some r ->
       exists t, Out fType k = Return t /\ accepts t r = true
                 /\ res !! k = Some (Val t r).
Proof.
  intros Hu Hret. rewrite (Deserialize_decoded _ fType _ Hu) in Hret.
  destruct (Deserialize_loop _ _ _ _) as [res'|] eqn:Hloop; [|discriminate].
  injection Hret as <-. exists res'. split; [reflexivity|].
  split.
  - apply Deserialize_loop_length in Hloop. now rewrite Hloop, repeat_length.
  - apply Deserialize_loop_typed in Hloop; [|rewrite repeat_length; simpl; lia].
    destruct Hloop as [_ Hat]. exact Hat.
Qed.

(** X15. [Deserialize] panics as soon as one decoded element is not
    taken by its result type; a JSON [null] is taken by none, not even by
    [interface{}]. *)
Theorem RedisCacheImpl_Deserialize_rejects (serializedResult : string) fType
    results k r :
  json.Unmarshal serializedResult = inr results ->
  results !! k = Some r ->
  (r = VNil \/ forall t, Out fType k = Return t -> accepts t r = false) ->
  RedisCacheImpl_Deserialize serializedResult fType = Panic.
Proof.
  intros Hu Hk Hbad. rewrite (Deserialize_decoded _ fType _ Hu).
  destruct (Deserialize_loop _ _ _ _) as [res'|] eqn:Hloop; [|reflexivity].
  apply Deserialize_loop_typed in Hloop; [|rewrite repeat_length; simpl; lia].
  destruct Hloop as [_ Hat].
  destruct (Hat k r Hk) as [t [Ho [Hacc _]]]. simpl in Ho.
  destruct Hbad as [->|Hbad].
  - discriminate.
  - rewrite (Hbad t Ho) in Hacc. discriminate.
Qed.

(** X16. [Deserialize] returns, without error, whenever the text
    decodes to a list and the signature has a result type that takes
    each element: nothing else makes it fail. *)
Theorem RedisCacheImpl_Deserialize_accepts (serializedResult : string) fType
    results :
  json.Unmarshal serializedResult = inr results ->
  (forall k r, results !! k = Some r ->
     exists t, Out fType k = Return t /\ accepts t r = true) ->
  exists res, RedisCacheImpl_Deserialize serializedResult fType
              = Return (mkslice res, None)
    /\ length res = length results.
Proof.
  intros Hu Hacc. rewrite (Deserialize_decoded _ fType _ Hu).
  destruct (Deserialize_loop_accepts fType results 0
              (repeat Zero (length results)) Hacc) as [res' Hloop].
  rewrite Hloop. exists res'. split; [reflexivity|].
  apply Deserialize_loop_length in Hloop. now rewrite Hloop, repeat_length.
Qed.

End CodecLoop.

(** * The text [Serialize] writes, read back *)

Section SerializedText.
Import reflect JSON.

Lemma lex_LValue (c : ascii) (r : string) :
  lex LValue (String c r)
  = match begin c with
    | Some (ts, m') => option_map (app ts) (lex m' r)
    | None => None
    end.
Proof. reflexivity. Qed.

Lemma lex_object (rest : string) :
  lex LValue (String "{" (String "}" rest))
  = option_map (app [LBrace; RBrace]) (lex LValue rest).
Proof.
  rewrite lex_LValue. change (begin "{") with (Some ([LBrace], LValue)).
  cbv beta iota.
  rewrite lex_LValue. change (begin "}") with (Some ([RBrace], LValue)).
  cbv beta iota.
  destruct (lex LValue rest); reflexivity.
Qed.

Lemma lex_comma (rest : string) :
  lex LValue (String "," rest) = option_map (cons Comma) (lex LValue rest).
Proof.
  rewrite lex_LValue. change (begin ",") with (Some ([Comma], LValue)).
  cbv beta iota.
  destruct (lex LValue rest); reflexivity.
Qed.

Lemma lex_objects (m : nat) : forall (rest : string) toks,
  lex LValue rest = Some toks ->
  lex LValue (String.concat "," (repeat "{}" (S m)) ++ rest)%string
  = Some ([LBrace; RBrace]
          ++ List.concat (repeat [Comma; LBrace; RBrace] m) ++ toks)%list.
Proof.
  induction m as [|m IH]; intros rest toks Hrest.
  - change (String.concat "," (repeat "{}" 1) ++ rest)%string
      with (String "{" (String "}" rest)).
    rewrite lex_object, Hrest. reflexivity.
  - change (String.concat "," (repeat "{}" (S (S m))) ++ rest)%string
      with (String "{" (String "}" (String ","
              (String.concat "," (repeat "{}" (S m)) ++ rest)%string))).
    rewrite lex_object, lex_comma, (IH rest toks Hrest). reflexivity.
Qed.

Lemma run_object (acc : list value) (ts : list token) :
  run PAfter [FArr acc] (Comma :: LBrace :: RBrace :: ts)
  = run PAfter [FArr (acc ++ [JObject []])%list] ts.
Proof. reflexivity. Qed.

Lemma run_objects (m : nat) : forall (acc : list value) (ts : list token),
  run PAfter [FArr acc] (List.concat (repeat [Comma; LBrace; RBrace] m) ++ ts)%list
  = run PAfter [FArr (acc ++ repeat (JObject []) m)%list] ts.
Proof.
  induction m as [|m IH]; intros acc ts.
  - simpl. now rewrite app_nil_r.
  - change (List.concat (repeat [Comma; LBrace; RBrace] (S m)) ++ ts)%list
      with (Comma :: LBrace :: RBrace
            :: (List.concat (repeat [Comma; LBrace; RBrace] m) ++ ts)%list).
    rewrite run_object, IH. now rewrite <- app_assoc.
Qed.

Lemma parse_objects (n : nat) :
  parse ("[" ++ String.concat "," (repeat "{}" n) ++ "]")%string
  = Some (JArray (repeat (JObject []) n)).
Proof.
  destruct n as [|m]; [reflexivity|].
  unfold parse.
  change ("[" ++ String.concat "," (repeat "{}" (S m)) ++ "]")%string
    with (String "[" (String.concat "," (repeat "{}" (S m)) ++ "]")%string).
  change (lex LValue (String "[" ?s))
    with (option_map (app [LBracket]) (lex LValue s)).
  rewrite (lex_objects m "]" [RBracket] eq_refl).
  change (run PValue []
            (LBracket :: LBrace :: RBrace
             :: (List.concat (repeat [Comma; LBrace; RBrace] m) ++ [RBracket])%list)
          = Some (JArray (repeat (JObject []) (S m)))).
  change (run PAfter [FArr [JObject []]]
            (List.concat (repeat [Comma; LBrace; RBrace] m) ++ [RBracket])%list
          = Some (JArray (repeat (JObject []) (S m)))).
  rewrite run_objects. reflexivity.
Qed.

Lemma Serialize_text (vs : list Value) :
  RedisCacheImpl_Serialize (mkslice vs)
  = (("[" ++ String.concat "," (repeat "{}" (length vs)) ++ "]")%string, None).
Proof.
  unfold RedisCacheImpl_Serialize, json.Marshal.
  assert (Hmap : map (fun _ : Value => "{}") vs = repeat "{}" (length vs)).
  { induction vs as [|v vs IH]; [reflexivity|]. simpl. now rewrite IH. }
  now rewrite Hmap.
Qed.

Lemma Unmarshal_serialized (vs : list Value) :
  json.Unmarshal (fst (RedisCacheImpl_Serialize (mkslice vs)))
  = inr (repeat emptyMap (length vs)).
Proof.
  rewrite Serialize_text. cbn [fst]. unfold json.Unmarshal.
  rewrite parse_objects.
  assert (Hrange : forallb in_range (repeat (JObject []) (length vs)) = true).
  { induction (length vs) as [|n IH]; [reflexivity|]. simpl. exact IH. }
  rewrite Hrange. f_equal.
  induction (length vs) as [|n IH]; [reflexivity|]. simpl. now rewrite IH.
Qed.

Lemma lookup_repeat_emptyMap (n k : nat) (r : GoVal) :
  repeat emptyMap n !! k = Some r -> r = emptyMap.
Proof.
  revert k. induction n as [|n IH]; intros [|k] Hk; simpl in Hk;
    try discriminate.
  - now injection Hk as <-.
  - now apply (IH k).
Qed.

Lemma Deserialize_serialized_maps (vs : list Value) (fType : GoType)
    (vals : slice Value) err :
  RedisCacheImpl_Deserialize (fst (RedisCacheImpl_Serialize (mkslice vs))) fType
  = Return (vals, err) ->
  err = None
  /\ len vals = length vs
  /\ Forall (fun v => exists t, v = Val t emptyMap /\ accepts t emptyMap = true)
            (elems_of vals).
Proof.
  intros Hret.
  rewrite (Deserialize_decoded _ fType _ (Unmarshal_serialized vs)) in Hret.
  destruct (Deserialize_loop _ _ _ _) as [res|] eqn:Hloop; [|discriminate].
  injection Hret as <- <-.
  pose proof (Deserialize_loop_length _ _ _ _ _ Hloop) as Hlen.
  rewrite !repeat_length in Hlen.
  apply Deserialize_loop_typed in Hloop; [|rewrite !repeat_length; simpl; lia].
  destruct Hloop as [_ Hat].
  split; [reflexivity|]. split; [exact Hlen|].
  apply Forall_forall. intros v Hin. cbn [elems_of] in Hin.
  apply list_elem_of_lookup in Hin. destruct Hin as [k Hk].
  pose proof (lookup_lt_Some _ _ _ Hk) as Hlt.
  destruct (repeat emptyMap (length vs) !! k) as [r|] eqn:Hr.
  - pose proof (lookup_repeat_emptyMap _ _ _ Hr) as ->.
    destruct (Hat k emptyMap Hr) as [t [_ [Hacc Hres]]]. simpl in Hres.
    exists t. split; [congruence|exact Hacc].
  - apply lookup_ge_None in Hr. rewrite repeat_length in Hr. lia.
Qed.

(** X17. Of the values given to [Serialize], [Deserialize] gets only
    their number back: whatever it returns for the text is, without
    error, a list of as many values, each one an empty map.  So the round
    trip gives the values back only when each of them is an empty map. *)
Theorem RedisCacheImpl_roundtrip_only_maps (vs : list Value) (fType : GoType)
    (vals : slice Value) err :
  RedisCacheImpl_Deserialize (fst (RedisCacheImpl_Serialize (mkslice vs))) fType
  = Return (vals, err) ->
  err = None
  /\ len vals = length vs
  /\ Forall (fun v => exists t, v = Val t emptyMap /\ accepts t emptyMap = true)
            (elems_of vals)
  /\ (vals = mkslice vs -> Forall (fun v => exists t, v = Val t emptyMap) vs).
Proof.
  intros Hret.
  destruct (Deserialize_serialized_maps vs fType vals err Hret)
    as [Herr [Hlen Hall]].
  split; [exact Herr|]. split; [exact Hlen|]. split; [exact Hall|].
  intros ->. cbn [elems_of] in Hall.
  eapply Forall_impl; [exact Hall|].
  intros v [t [Hv _]]. now exists t.
Qed.

End SerializedText.

(** * Further properties of the remote store backend *)

Section RemoteCalls.
Import reflect.
Context {S : Type} `{UniversalClient S}.
Implicit Types (key : string) (fType : GoType) (store : S).
Implicit Types (now : time.Time) (ttl : time.Duration).

(** X18. [Set] on the remote store backend always reaches the store,
    once, and returns what the store returns.  The text it stores is
    [null] for the nil list and otherwise a JSON array of one empty
    object per value: it depends on the number of values alone. *)
Theorem RedisCacheImpl_Set_text key (vs : list Value) ttl now store :
  RedisCacheImpl_Set key (mkslice vs) ttl now store
  = client_Set key ("[" ++ String.concat "," (repeat "{}" (length vs)) ++ "]")%string
               ttl now store
  /\ RedisCacheImpl_Set key nil_slice ttl now store
     = client_Set key "null" ttl now store
  /\ RedisCacheImpl_Set key (mkslice vs) ttl now store
     = RedisCacheImpl_Set key (mkslice (repeat Zero (length vs))) ttl now store.
Proof.
  split; [|split].
  - rewrite RedisCacheImpl_Set_forwards. now rewrite Serialize_text.
  - now rewrite RedisCacheImpl_Set_forwards.
  - rewrite !RedisCacheImpl_Set_forwards.
    rewrite (Serialize_forgets vs (repeat Zero (length vs))); [reflexivity|].
    now rewrite repeat_length.
Qed.

Lemma Deserialize_error_kind (serializedResult : string) fType
    (vals : slice Value) (e : error) :
  RedisCacheImpl_Deserialize serializedResult fType = Return (vals, Some e) ->
  vals = nil_slice /\ (e = SyntaxError \/ e = UnmarshalTypeError).
Proof.
  unfold RedisCacheImpl_Deserialize, json.Unmarshal.
  destruct (JSON.parse serializedResult) as [[| | | |xs|]|];
    try (intros [= <- <-]; split; [reflexivity|tauto]).
  - destruct (Deserialize_loop _ _ _ _); discriminate.
  - destruct (forallb JSON.in_range xs).
    + destruct (Deserialize_loop _ _ _ _); discriminate.
    + intros [= <- <-]. split; [reflexivity|tauto].
Qed.

(** X19. What [Get] on the remote store backend returns is one of
    three: the values decoded from a text the store returned without
    error, with found and no error; not found, the nil list and no error;
    or not found, the nil list and an error, which is never [redis.Nil]. *)
Theorem RedisCacheImpl_Get_cases key fType now store store'
    (v : slice Value) (found : bool) (err : option error) :
  RedisCacheImpl_Get key fType now store = (Return (v, found, err), store') ->
  err <> Some redis_Nil
  /\ (if found
      then err = None
           /\ exists cachedResult,
                client_Get key now store = ((cachedResult, None), store')
                /\ RedisCacheImpl_Deserialize cachedResult fType = Return (v, None)
      else v = nil_slice).
Proof.
  unfold RedisCacheImpl_Get.
  destruct (client_Get key now store) as [[cachedResult e] s1].
  destruct e as [e|].
  - destruct e; cbn [not_nil is_redis_Nil andb negb];
      intros [= <- <- <- <-]; split; try discriminate; reflexivity.
  - cbn [not_nil is_redis_Nil andb negb].
    destruct (RedisCacheImpl_Deserialize cachedResult fType)
      as [[vals [e|]]|] eqn:Hd; [| |discriminate].
    + intros [= <- <- <- <-].
      destruct (Deserialize_error_kind _ _ _ _ Hd) as [_ [->| ->]];
        split; try discriminate; reflexivity.
    + intros [= <- <- <- <-]. split; [discriminate|].
      split; [reflexivity|]. now exists cachedResult.
Qed.

(** X20. Over a store that took the text of a [Set] and returns it to
    the next [Get]: a list without values is found again, as the empty
    list, whatever the signature; and whenever the [Get] returns, it
    reports found with as many values as were set, each one an empty map. *)
Theorem RedisCacheImpl_Get_after_Set key (val : slice Value) ttl fType
    now now' store store1 store2 :
  client_Set key (fst (RedisCacheImpl_Serialize val)) ttl now store = (None, store1) ->
  client_Get key now' store1
  = ((fst (RedisCacheImpl_Serialize val), None), store2) ->
  RedisCacheImpl_Set key val ttl now store = (None, store1)
  /\ (len val = O ->
      RedisCacheImpl_Get key fType now' store1
      = (Return (mkslice [], true, None), store2))
  /\ (forall vs (v : slice Value) found err store',
      val = mkslice vs ->
      RedisCacheImpl_Get key fType now' store1 = (Return (v, found, err), store') ->
      found = true /\ err = None /\ len v = length vs
      /\ Forall (fun x => exists t, x = Val t emptyMap) (elems_of v)).
Proof.
  intros Hset Hget. split; [|split].
  - rewrite RedisCacheImpl_Set_forwards. exact Hset.
  - intros Hlen. unfold RedisCacheImpl_Get. rewrite Hget.
    cbn [not_nil is_redis_Nil andb negb].
    now rewrite (RedisCacheImpl_roundtrip_empty val fType Hlen).
  - intros vs v found err store' -> Hret.
    unfold RedisCacheImpl_Get in Hret. rewrite Hget in Hret.
    cbn [not_nil is_redis_Nil andb negb] in Hret.
    destruct (RedisCacheImpl_Deserialize _ fType) as [[vals e]|] eqn:Hd;
      [|discriminate].
    destruct (Deserialize_serialized_maps vs fType vals e Hd)
      as [-> [Hlen Hall]].
    injection Hret as <- <- <- _.
    split; [reflexivity|]. split; [reflexivity|]. split; [exact Hlen|].
    eapply Forall_impl; [exact Hall|].
    intros x [t [Hx _]]. now exists t.
Qed.

End RemoteCalls.

(** * Further properties of the key deriver *)

Section KeyCalls.
Import reflect.
Variable decodedText : JSON.value -> string.
Implicit Types (fName key : string) (args : list Value).

Lemma string_app_nil_r (s : string) : (s ++ "")%string = s.
Proof.
  induction s as [|c s IH]; [reflexivity|].
  change (String c (s ++ "") = String c s)%string. now rewrite IH.
Qed.

Lemma Key_loop_app args args' : forall key,
  Key_loop decodedText key (args ++ args')%list
  = match Key_loop decodedText key args with
    | Return key' => Key_loop decodedText key' args'
    | Panic => Panic
    end.
Proof.
  induction args as [|arg args IH]; intros key; cbn [Key_loop app].
  - reflexivity.
  - destruct (Interface arg); [apply IH|reflexivity].
Qed.

Lemma Interface_panics (arg : Value) :
  Interface arg = Panic <-> arg = Zero \/ exists t x, arg = ValRO t x.
Proof.
  destruct arg as [|t x|t x]; cbn [Interface].
  - split; [now left|reflexivity].
  - split.
    + destruct (Kind_eqb (kind t) KInterface); [destruct (dynType x)|];
        discriminate.
    + intros [Hz|[t' [x' Hro]]]; discriminate.
  - split; [|reflexivity]. intros _. right. now exists t, x.
Qed.

Lemma Key_loop_panics args : forall key,
  Key_loop decodedText key args = Panic
  <-> exists arg, In arg args /\ Interface arg = Panic.
Proof.
  induction args as [|arg args IH]; intros key; cbn [Key_loop In].
  - split; [discriminate|]. intros [arg [[] _]].
  - destruct (Interface arg) as [a|] eqn:Ha.
    + rewrite IH. split.
      * intros [arg' [Hin Hp]]. exists arg'. split; [now right|exact Hp].
      * intros [arg' [[<-|Hin] Hp]]; [congruence|]. now exists arg'.
    + split; [|reflexivity]. intros _. exists arg. split; [now left|exact Ha].
Qed.

(** X21. [Key] panics exactly when [Interface] panics on one of the
    arguments, that is when one of them is the zero Value or a read-only
    Value, obtained from an unexported struct field; for every other
    argument list it returns a key. *)
Theorem CacheKeyImpl_Key_panics fName args :
  (CacheKeyImpl_Key decodedText fName (mkslice args) = Panic
   <-> exists arg, In arg args /\ (arg = Zero \/ exists t x, arg = ValRO t x))
  /\ ((forall arg, In arg args -> exists t x, arg = Val t x) ->
      exists key, CacheKeyImpl_Key decodedText fName (mkslice args) = Return key).
Proof.
  unfold CacheKeyImpl_Key. cbn [elems_of]. split.
  - rewrite Key_loop_panics. split.
    + intros [arg [Hin Hp]]. exists arg. split; [exact Hin|].
      now apply Interface_panics.
    + intros [arg [Hin Hbad]]. exists arg. split; [exact Hin|].
      now apply Interface_panics.
  - intros Hall.
    destruct (Key_loop decodedText fName args) as [key|] eqn:Hk.
    + now exists key.
    + apply Key_loop_panics in Hk. destruct Hk as [arg [Hin Hp]].
      destruct (Hall arg Hin) as [t [x ->]].
      apply Interface_panics in Hp.
      destruct Hp as [Hz|[t' [x' Hro]]]; discriminate.
Qed.

(** X22. The key of an argument list is built from left to right: the
    key of [args ++ args'] is the key that [args'] gets under the key of
    [args] as its name. *)
Theorem CacheKeyImpl_Key_app fName args args' :
  CacheKeyImpl_Key decodedText fName (mkslice (args ++ args'))
  = match CacheKeyImpl_Key decodedText fName (mkslice args) with
    | Return key => CacheKeyImpl_Key decodedText key (mkslice args')
    | Panic => Panic
    end.
Proof. unfold CacheKeyImpl_Key. cbn [elems_of]. apply Key_loop_app. Qed.

(** X23. Keys collide.  A string argument cannot be told from the end of
    the function name, the boundary between two string arguments is lost,
    and an int has the key of the string of its decimal digits. *)
Theorem CacheKeyImpl_Key_collisions fName (a b : string) (n : Z) args :
  CacheKeyImpl_Key decodedText fName (mkslice (Val TString (VString a) :: args))
  = CacheKeyImpl_Key decodedText (fName ++ a) (mkslice args)
  /\ CacheKeyImpl_Key decodedText fName
       (mkslice (Val TString (VString a) :: Val TString (VString b) :: args))
     = CacheKeyImpl_Key decodedText fName
         (mkslice (Val TString (VString (a ++ b)) :: Val TString (VString "") :: args))
  /\ CacheKeyImpl_Key decodedText fName (mkslice (Val TInt (VInt n) :: args))
     = CacheKeyImpl_Key decodedText fName
         (mkslice (Val TString (VString (NilZero.string_of_int (Z.to_int n))) :: args)).
Proof.
  unfold CacheKeyImpl_Key. cbn [elems_of Key_loop].
  change (Interface (Val TString (VString a))) with (Return (Any TString (VString a))).
  change (Interface (Val TString (VString b))) with (Return (Any TString (VString b))).
  change (Interface (Val TString (VString (a ++ b))))
    with (Return (Any TString (VString (a ++ b)))).
  change (Interface (Val TString (VString ""))) with (Return (Any TString (VString ""))).
  cbn [fmt.Sprint_v].
  split; [reflexivity|]. split; [|reflexivity].
  now rewrite string_app_nil_r, string_app_assoc.
Qed.

End KeyCalls.

Section FurtherWitnesses.
Import reflect.

Lemma MapCacheImpl_Set_frame_witness :
  "a" <> "b"
  /\ MapCacheImpl_Get "b" TInt 5
       (snd (MapCacheImpl_Set "a" (mkslice [ValueOf (VInt 1)]) 3 0
               (mkMapCache {["b" := mkEntry (mkslice []) 9]})))
     = (fst (MapCacheImpl_Get "b" TInt 5 (mkMapCache {["b" := mkEntry (mkslice []) 9]})),
        snd (MapCacheImpl_Set "a" (mkslice [ValueOf (VInt 1)]) 3 0
               (mkMapCache {["b" := mkEntry (mkslice []) 9]}))).
Proof.
  assert (Hne : "a" <> "b") by discriminate.
  split; [exact Hne|]. now apply MapCacheImpl_Set_frame.
Defined.

Lemma MapCacheImpl_Expire_frame_witness :
  cache (snd (MapCacheImpl_Expire heldLock "a" 0 5
                (mkMapCache {["b" := mkEntry (mkslice []) 9]}))) !! "b"
  = Some (mkEntry (mkslice []) 9).
Proof.
  assert (Hne : "a" <> "b") by discriminate.
  rewrite (proj1 (MapCacheImpl_Expire_frame heldLock "a" "b" 0 TInt 5 5
                    (mkMapCache {["b" := mkEntry (mkslice []) 9]}) Hne)).
  reflexivity.
Defined.

Lemma MapCacheImpl_Expire_outcome_witness :
  fst (MapCacheImpl_Expire (mkLock None (Some (LockError "busy"))) "k" 0 5
         (mkMapCache {["k" := mkEntry (mkslice []) 9]}))
  = Panic.
Proof.
  exact (proj1 (MapCacheImpl_Expire_outcome (mkLock None (Some (LockError "busy")))
                  "k" 0 5 (mkMapCache {["k" := mkEntry (mkslice []) 9]}))).
Defined.

Lemma MapCacheImpl_Expire_revives_witness :
  fst (MapCacheImpl_Get "k" TInt 25
         (snd (MapCacheImpl_Expire heldLock "k" 7 20
                 (mkMapCache {["k" := mkEntry (mkslice [ValueOf (VInt 1)]) 9]}))))
  = (mkslice [ValueOf (VInt 1)], true, None).
Proof.
  apply (MapCacheImpl_Expire_revives heldLock "k" 7 TInt 20 25
           (mkMapCache {["k" := mkEntry (mkslice [ValueOf (VInt 1)]) 9]})
           (mkEntry (mkslice [ValueOf (VInt 1)]) 9));
    first [reflexivity | lia].
Defined.

Lemma MapCacheImpl_Get_earlier_witness :
  fst (MapCacheImpl_Get "k" TInt 2
         (mkMapCache {["k" := mkEntry (mkslice [ValueOf (VInt 1)]) 9]}))
  = (mkslice [ValueOf (VInt 1)], true, None).
Proof.
  apply (MapCacheImpl_Get_earlier "k" TInt 2 5
           (mkMapCache {["k" := mkEntry (mkslice [ValueOf (VInt 1)]) 9]})
           (mkslice [ValueOf (VInt 1)]) None);
    [reflexivity | lia].
Defined.

Lemma NewMapCacheImpl_empty_witness :
  NewMapCacheImpl [16; 32] = Panic.
Proof. apply (NewMapCacheImpl_empty [16; 32]). simpl. lia. Defined.

Lemma MapCacheImpl_values_from_Set_witness :
  Exists (fun call => match call with
                      | callSet k v _ _ => k = "k" /\ v = mkslice [ValueOf (VInt 1)]
                      | _ => False
                      end)
         [callSet "k" (mkslice [ValueOf (VInt 1)]) 5 0; callExpire heldLock "k" 9 3].
Proof.
  apply (MapCacheImpl_values_from_Set [] (mkMapCache ∅)
           [callSet "k" (mkslice [ValueOf (VInt 1)]) 5 0; callExpire heldLock "k" 9 3]
           "k" (mkEntry (mkslice [ValueOf (VInt 1)]) 12));
    reflexivity.
Defined.


Lemma PeriodicExpire_pass_keeps_witness :
  cache (snd (PeriodicExpire_pass heldLock [("k", 5)]
                (mkMapCache {["k" := mkEntry (mkslice []) 5]}))) !! "k"
  = Some (mkEntry (mkslice []) 5).
Proof.
  apply (proj2 (PeriodicExpire_pass_keeps heldLock [("k", 5)]
                  (mkMapCache {["k" := mkEntry (mkslice []) 5]}) "k")).
  - reflexivity.
  - intros n [[= <-]|[]]. simpl. lia.
Defined.

Lemma PeriodicExpire_pass_unseen_witness :
  fst (MapCacheImpl_Get "k" TInt 10
         (snd (PeriodicExpire_pass heldLock [("k", 10)]
                 (mkMapCache {["k" := mkEntry (mkslice []) 5]}))))
  = fst (MapCacheImpl_Get "k" TInt 10 (mkMapCache {["k" := mkEntry (mkslice []) 5]})).
Proof.
  apply (PeriodicExpire_pass_unseen heldLock [("k", 10)]
           (mkMapCache {["k" := mkEntry (mkslice []) 5]}) "k" TInt 10).
  intros k n [[= <- <-]|[]]. lia.
Defined.

Lemma PeriodicExpire_pass_lock_failure_witness :
  PeriodicExpire_pass (mkLock (Some (LockError "busy")) None) [("k", 10)]
    (mkMapCache {["k" := mkEntry (mkslice []) 5]})
  = (Panic, mkMapCache {["k" := mkEntry (mkslice []) 5]}).
Proof.
  apply (PeriodicExpire_pass_lock_failure (mkLock (Some (LockError "busy")) None)
           "k" 10 [] (mkMapCache {["k" := mkEntry (mkslice []) 5]})
           (mkEntry (mkslice []) 5) (LockError "busy")).
  - reflexivity.
  - reflexivity.
  - simpl. lia.
  - intros k n e' [].
Defined.

Lemma RedisCacheImpl_Deserialize_typed_witness :
  exists res, mkslice [Val TBool (VBool true)] = mkslice res
    /\ length res = length [VBool true]
    /\ forall k r, [VBool true] !! k = Some r ->
       exists t, Out (TFunc [] [TBool]) k = Return t /\ accepts t r = true
                 /\ res !! k = Some (Val t r).
Proof.
  apply (RedisCacheImpl_Deserialize_typed "[true]" (TFunc [] [TBool]) [VBool true]
           (mkslice [Val TBool (VBool true)]));
    reflexivity.
Defined.

Lemma RedisCacheImpl_Deserialize_rejects_witness :
  RedisCacheImpl_Deserialize "[null]" (TFunc [] [TInterface]) = Panic.
Proof.
  apply (RedisCacheImpl_Deserialize_rejects "[null]" (TFunc [] [TInterface])
           [VNil] O VNil);
    [reflexivity | reflexivity | now left].
Defined.

Lemma RedisCacheImpl_Deserialize_accepts_witness :
  exists res, RedisCacheImpl_Deserialize "[true]" (TFunc [] [TInterface])
              = Return (mkslice res, None)
    /\ length res = length [VBool true].
Proof.
  apply (RedisCacheImpl_Deserialize_accepts "[true]" (TFunc [] [TInterface])
           [VBool true]).
  - reflexivity.
  - intros [|k] r Hk; simpl in Hk; [|discriminate].
    injection Hk as <-. exists TInterface. split; reflexivity.
Defined.

Lemma RedisCacheImpl_roundtrip_only_maps_witness :
  (None : option error) = None
  /\ len (mkslice [Val TInterface emptyMap]) = length [Val TInterface (VString "a")]
  /\ Forall (fun v => exists t, v = Val t emptyMap /\ accepts t emptyMap = true)
            (elems_of (mkslice [Val TInterface emptyMap]))
  /\ (mkslice [Val TInterface emptyMap] = mkslice [Val TInterface (VString "a")] ->
      Forall (fun v => exists t, v = Val t emptyMap) [Val TInterface (VString "a")]).
Proof.
  apply (RedisCacheImpl_roundtrip_only_maps [Val TInterface (VString "a")]
           (TFunc [] [TInterface]) (mkslice [Val TInterface emptyMap]) None).
  reflexivity.
Defined.

Lemma RedisCacheImpl_Get_cases_witness :
  (None : option error) <> Some redis_Nil /\ (nil_slice : slice Value) = nil_slice.
Proof.
  apply (RedisCacheImpl_Get_cases "k" (TFunc [] [TBool]) 0
           (∅ : gmap string storeEntry) ∅ nil_slice false None).
  reflexivity.
Defined.

Lemma RedisCacheImpl_Get_after_Set_witness :
  RedisCacheImpl_Get "k" (TFunc [] []) 0
    ({["k" := mkStoreEntry "[]" (Some time.Second)]} : gmap string storeEntry)
  = (Return (mkslice [], true, None),
     {["k" := mkStoreEntry "[]" (Some time.Second)]}).
Proof.
  destruct (RedisCacheImpl_Get_after_Set "k" (mkslice []) time.Second
              (TFunc [] []) 0 0 (∅ : gmap string storeEntry)
              {["k" := mkStoreEntry "[]" (Some time.Second)]}
              {["k" := mkStoreEntry "[]" (Some time.Second)]})
    as [_ [Hget _]]; [reflexivity|reflexivity|].
  apply Hget. reflexivity.
Defined.

Lemma CacheKeyImpl_Key_panics_witness :
  CacheKeyImpl_Key (fun _ => "") "Add"
    (mkslice [ValueOf (VInt 1); ValRO TInt (VInt 2)]) = Panic
  /\ exists key,
       CacheKeyImpl_Key (fun _ => "") "Add"
         (mkslice [ValueOf (VInt 1); Val (TSlice TInt) VNil]) = Return key.
Proof.
  split.
  - apply (proj1 (CacheKeyImpl_Key_panics (fun _ => "") "Add"
                    [ValueOf (VInt 1); ValRO TInt (VInt 2)])).
    exists (ValRO TInt (VInt 2)). split; [right; now left|].
    right. now exists TInt, (VInt 2).
  - apply (proj2 (CacheKeyImpl_Key_panics (fun _ => "") "Add"
                    [ValueOf (VInt 1); Val (TSlice TInt) VNil])).
    intros arg [<-|[<-|[]]].
    + now exists TInt, (VInt 1).
    + now exists (TSlice TInt), VNil.
Defined.

End FurtherWitnesses.
